(** * The in-memory event repository of [packages/util/src/Repository.ts]

    A shallow embedding of the [Repository] class: its seven indices, the
    acceptance rules of [publish], the tombstone table, the single-index
    query evaluator and the bulk loader, followed by the properties the
    specification states about them. *)

From stdpp Require Import base gmap strings list sorting pretty.
From Stdlib Require Import ZArith Lia Ascii.

Local Open Scope Z_scope.
Set Warnings "-clear-no-such-hyp".

(** ** Events and filters *)

(** [TrustedEvent]. [wrap] holds the id of the wrapper event, the only
    field of [event.wrap] the repository reads. *)
Record Event := {
  id : string;
  pubkey : string;
  created_at : Z;
  kind : Z;
  tags : list (list string);
  content : string;
  wrap : option string
}.

(** Events are JavaScript objects compared by reference ([x !== duplicate],
    [new Set(xs)]).  The store keeps one object per id, so reference
    equality of stored events is rendered by equality of values. *)
#[global] Instance Event_eq_dec : EqDecision Event.
Proof. solve_decision. Defined.

(** [Filter]: the optional fields the repository reads, and, in insertion
    order, the remaining own properties of the filter object (the [#x] tag
    fields among them) under their full key. *)
Record Filter := {
  ids : option (list string);
  authors : option (list string);
  kinds : option (list Z);
  since : option Z;
  until : option Z;
  limit : option Z;
  tag_fields : list (string * list string)
}.

(** The payload of an ['update'] notification. *)
Record Update := {
  added : list Event;
  removed : gset string
}.

(** ** What the repository imports from sibling modules

    [getAddress] (Address.ts), [isReplaceable] and [isTrustedEvent]
    (Events.ts), [DELETE] (Kinds.ts) and [EPOCH] (Filters.ts) are not part
    of the sources at hand; the development is parametric in them. *)
Class Externals := {
  getAddress : Event → string;
  isReplaceable : Event → bool;
  isTrustedEvent : Event → bool;
  DELETE : Z;
  EPOCH : Z
}.

(** ** JavaScript [Map] with observable insertion order

    [eventsById] is enumerated by [Array.from(this.eventsById.values())], so
    its insertion order is part of the state: [set] on a present key keeps
    the key's position, on a fresh key appends. *)
Module JsMap.
Section jsmap.
Context {V : Type}.

Fixpoint get (k : string) (m : list (string * V)) : option V :=
match m with
| [] => None
| (k', v) :: m' => if decide (k' = k) then Some v else get k m'
end.

Fixpoint set (k : string) (v : V) (m : list (string * V)) : list (string * V) :=
match m with
| [] => [(k, v)]
| (k', v') :: m' =>
  if decide (k' = k) then (k, v) :: m' else (k', v') :: set k v m'
end.

Definition values (m : list (string * V)) : list V := m.*2.
Definition keys (m : list (string * V)) : list string := m.*1.
End jsmap.
End JsMap.

(** ** Helpers of [@welshman/lib] *)

(** Modelled from the spec: [uniq] of [@welshman/lib] is missing from the
    sources; the spec asks for "duplicates removed".  Rendered as
    [Array.from(new Set(xs))]: the first occurrence of each element stays. *)
Definition uniq_step {A} `{EqDecision A} (acc : list A) (x : A) : list A :=
  if decide (x ∈ acc) then acc else acc ++ [x].

Definition uniq {A} `{EqDecision A} (xs : list A) : list A :=
  foldl uniq_step [] xs.

(** The order of the keys [f x]. *)
Definition byKey {A} (f : A → Z) (a b : A) : Prop := f a ≤ f b.

#[global] Instance byKey_dec {A} (f : A → Z) (a b : A) : Decision (byKey f a b).
Proof. unfold byKey. apply _. Defined.

(** Modelled from the spec: [sortBy] of [@welshman/lib] is missing from the
    sources; the spec sorts the candidates "by [created_at] descending (ties
    unordered)".  [sortBy f xs] is [xs] in ascending order of the key [f];
    the proofs use that it is sorted and a permutation, nothing else. *)
Definition sortBy {A} (f : A → Z) (xs : list A) : list A :=
  merge_sort (byKey f) xs.

(** Modelled from the spec: [range] of [@welshman/lib] is missing from the
    sources; the spec spans the day buckets from the first day "to" the last
    "inclusive", which [range(sinceDay, inc(untilDay))] gives when [range a b]
    enumerates [a], [a+1], ..., [b-1]. *)
Definition range (a b : Z) : list Z := seqZ a (b - a).

(** Modelled from the spec: [inc] of [@welshman/lib] is missing from the
    sources; the successor, see [range]. *)
Definition inc (x : Z) : Z := x + 1.

(** Modelled from the spec: the batching behind [chunk]; the spec inserts
    "in fixed-size batches".  [cur] is the batch being filled. *)
Fixpoint chunk_from {A} (n : nat) (cur : list A) (xs : list A) : list (list A) :=
  match xs with
  | [] => match cur with [] => [] | _ => [cur] end
  | x :: xs' =>
      if decide (length (cur ++ [x]) = n) then (cur ++ [x]) :: chunk_from n [] xs'
      else chunk_from n (cur ++ [x]) xs'
  end.

(** Modelled from the spec: [chunk] of [@welshman/lib] is missing from the
    sources; [chunk n xs] cuts [xs] into consecutive batches of [n] elements,
    the last one possibly shorter. *)
Definition chunk {A} (chunkLength : positive) (xs : list A) : list (list A) :=
  chunk_from (Pos.to_nat chunkLength) [] xs.

(** Modelled from the spec: [flatten] of [@welshman/lib] is missing from the
    sources; the spec merges the filters' results into one collection. *)
Definition flatten {A} (xs : list (list A)) : list A := concat xs.

(** ** Strings *)

Fixpoint includes (c : ascii) (s : string) : bool :=
  match s with
  | EmptyString => false
  | String c' s' => if decide (c' = c) then true else includes c s'
  end.

(** [tag.slice(0, 2).join(':')] *)
Definition join_colon (l : list string) : string :=
  match l with
  | [] => ""
  | [a] => a
  | a :: b :: _ => a +:+ ":" +:+ b
  end.

(** Truthiness of an optional number: [undefined] and [0] are falsy. *)
Definition truthy (x : option Z) : bool :=
  match x with
  | Some n => negb (n =? 0)
  | None => false
  end.

(** [x || d] on an optional number. *)
Definition or_else (x : option Z) (d : Z) : Z :=
  if truthy x then default d x else d.

(** ** Filter matching *)

(** A field that is absent constrains nothing. *)
Definition field_ok {A} (P : A → bool) (x : option A) : bool :=
  match x with
  | Some a => P a
  | None => true
  end.

(** The event carries a tag whose first element is [name] and whose second
    element is in [values]. *)
Definition carries (name : string) (values : list string) (e : Event) : bool :=
  existsb (λ tag : list string,
    match tag with
    | t :: v :: _ => bool_decide (t = name) && bool_decide (v ∈ values)
    | _ => false
    end) (tags e).

(** One own property of the filter beside the named fields: a [#X] field
    asks for a tag [X], any other key asks for nothing. *)
Definition tag_field_ok (e : Event) (kv : string * list string) : bool :=
  match kv.1 with
  | String "#" name => carries name kv.2 e
  | _ => true
  end.

(** Modelled from the spec: [matchFilter] of Filters.ts is missing from the
    sources.  Spec, 4.2 step 4: "an event matches a residual filter iff
    every present field is satisfied - ids/authors/kinds as set-membership,
    since/until as inclusive bounds on created_at, each #X tag field as
    the event carries a tag whose first element is X and whose second
    element is in the given value set, with all present fields ANDed". *)
Definition matchFilter (f : Filter) (e : Event) : bool :=
  field_ok (λ l, bool_decide (id e ∈ l)) (ids f)
  && field_ok (λ l, bool_decide (pubkey e ∈ l)) (authors f)
  && field_ok (λ l, bool_decide (kind e ∈ l)) (kinds f)
  && field_ok (λ s, s <=? created_at e) (since f)
  && field_ok (λ u, created_at e <=? u) (until f)
  && forallb (tag_field_ok e) (tag_fields f).

(** [omit(['ids'], filter)], [omit(['authors'], filter)], [omit([k], filter)] *)
Definition omit_ids (f : Filter) : Filter :=
  {| ids := None; authors := authors f; kinds := kinds f; since := since f;
     until := until f; limit := limit f; tag_fields := tag_fields f |}.

Definition omit_authors (f : Filter) : Filter :=
  {| ids := ids f; authors := None; kinds := kinds f; since := since f;
     until := until f; limit := limit f; tag_fields := tag_fields f |}.

Definition omit_key (k : string) (f : Filter) : Filter :=
  {| ids := ids f; authors := authors f; kinds := kinds f; since := since f;
     until := until f; limit := limit f;
     tag_fields := filter (λ kv, kv.1 ≠ k) (tag_fields f) |}.

(** ** The repository *)

Definition DAY : Z := 86400.

Definition getDay (ts : Z) : Z := ts / DAY.

(** The seven maps of the class.  [deletes] is a [Map<string, number>]
    that line 188 of [publish] can also write under the key [undefined],
    when a deletion tag has no value; [deletes_undefined] is that entry,
    the string keys are in [deletes]. *)
Record Repository := {
  eventsById : list (string * Event);
  eventsByWrap : gmap string Event;
  eventsByAddress : gmap string Event;
  eventsByTag : gmap string (list Event);
  eventsByDay : gmap Z (list Event);
  eventsByAuthor : gmap string (list Event);
  deletes : gmap string Z;
  deletes_undefined : option Z
}.

(** The state of [new Repository()], and the state [clear] leaves. *)
Definition empty_repository : Repository :=
  {| eventsById := []; eventsByWrap := ∅; eventsByAddress := ∅;
     eventsByTag := ∅; eventsByDay := ∅; eventsByAuthor := ∅; deletes := ∅;
     deletes_undefined := None |}.

Definition set_eventsById v (r : Repository) : Repository :=
  {| eventsById := v; eventsByWrap := eventsByWrap r;
     eventsByAddress := eventsByAddress r; eventsByTag := eventsByTag r;
     eventsByDay := eventsByDay r; eventsByAuthor := eventsByAuthor r;
     deletes := deletes r; deletes_undefined := deletes_undefined r |}.

Definition set_eventsByWrap v (r : Repository) : Repository :=
  {| eventsById := eventsById r; eventsByWrap := v;
     eventsByAddress := eventsByAddress r; eventsByTag := eventsByTag r;
     eventsByDay := eventsByDay r; eventsByAuthor := eventsByAuthor r;
     deletes := deletes r; deletes_undefined := deletes_undefined r |}.

Definition set_eventsByAddress v (r : Repository) : Repository :=
  {| eventsById := eventsById r; eventsByWrap := eventsByWrap r;
     eventsByAddress := v; eventsByTag := eventsByTag r;
     eventsByDay := eventsByDay r; eventsByAuthor := eventsByAuthor r;
     deletes := deletes r; deletes_undefined := deletes_undefined r |}.

Definition set_eventsByTag v (r : Repository) : Repository :=
  {| eventsById := eventsById r; eventsByWrap := eventsByWrap r;
     eventsByAddress := eventsByAddress r; eventsByTag := v;
     eventsByDay := eventsByDay r; eventsByAuthor := eventsByAuthor r;
     deletes := deletes r; deletes_undefined := deletes_undefined r |}.

Definition set_eventsByDay v (r : Repository) : Repository :=
  {| eventsById := eventsById r; eventsByWrap := eventsByWrap r;
     eventsByAddress := eventsByAddress r; eventsByTag := eventsByTag r;
     eventsByDay := v; eventsByAuthor := eventsByAuthor r;
     deletes := deletes r; deletes_undefined := deletes_undefined r |}.

Definition set_eventsByAuthor v (r : Repository) : Repository :=
  {| eventsById := eventsById r; eventsByWrap := eventsByWrap r;
     eventsByAddress := eventsByAddress r; eventsByTag := eventsByTag r;
     eventsByDay := eventsByDay r; eventsByAuthor := v;
     deletes := deletes r; deletes_undefined := deletes_undefined r |}.

Definition set_deletes v (r : Repository) : Repository :=
  {| eventsById := eventsById r; eventsByWrap := eventsByWrap r;
     eventsByAddress := eventsByAddress r; eventsByTag := eventsByTag r;
     eventsByDay := eventsByDay r; eventsByAuthor := eventsByAuthor r;
     deletes := v; deletes_undefined := deletes_undefined r |}.

Definition set_deletes_undefined v (r : Repository) : Repository :=
  {| eventsById := eventsById r; eventsByWrap := eventsByWrap r;
     eventsByAddress := eventsByAddress r; eventsByTag := eventsByTag r;
     eventsByDay := eventsByDay r; eventsByAuthor := eventsByAuthor r;
     deletes := deletes r; deletes_undefined := v |}.

(** [_updateIndex(m, k, e, duplicate)] *)
Definition _updateIndex {K} `{Countable K} (m : gmap K (list Event)) (k : K)
    (e : Event) (duplicate : option Event) : gmap K (list Event) :=
  let a := default [] (m !! k) in
  let a := match duplicate with
           | Some d => filter (λ x, x ≠ d) a
           | None => a
           end in
  <[k := a ++ [e]]> m.

Section repository.
Context `{Externals}.

(** [dump] *)
Definition dump (r : Repository) : list Event := JsMap.values (eventsById r).

(** [this.deletes.get(k) || 0] *)
Definition tombstone (r : Repository) (k : string) : Z :=
  or_else (deletes r !! k) 0.

Definition isDeletedByAddress (r : Repository) (event : Event) : bool :=
  created_at event <? tombstone r (getAddress event).

Definition isDeletedById (r : Repository) (event : Event) : bool :=
  created_at event <? tombstone r (id event).

Definition isDeleted (r : Repository) (event : Event) : bool :=
  isDeletedByAddress r event || isDeletedById r event.

(** [getEvent] *)
Definition getEvent (r : Repository) (idOrAddress : string) : option Event :=
  if includes ":" idOrAddress then eventsByAddress r !! idOrAddress
  else JsMap.get idOrAddress (eventsById r).

(** [hasEvent]: [None] is [undefined], [Some b] the boolean [b]. *)
Definition hasEvent (r : Repository) (event : Event) : option bool :=
  let duplicate :=
    match JsMap.get (id event) (eventsById r) with
    | Some d => Some d
    | None => eventsByAddress r !! getAddress event
    end in
  match duplicate with
  | Some d => Some (created_at event <=? created_at d)
  | None => None
  end.

(** *** [publish] *)

(** One turn of the loop over [event.tags].  The state is the repository
    and the [removed] set; [None] is the [TypeError] that
    [getEvent(tag[1])] raises on a deletion tag without a value.
    [tag[0]?.length] counts UTF-16 units, [String.length] bytes: they agree
    on ASCII tag names. *)
Definition publish_tag (event : Event) (duplicate : option Event)
    (st : Repository * gset string) (tag : list string)
    : option (Repository * gset string) :=
  let '(r, removed) := st in
  match tag with
  | t0 :: _ =>
      if decide (String.length t0 = 1%nat) then
        let r := set_eventsByTag
                   (_updateIndex (eventsByTag r) (join_colon (take 2 tag))
                      event duplicate) r in
        if decide (kind event = DELETE) then
          match tag !! 1%nat with
          | Some target =>
              let r := set_deletes
                         (<[target := Z.max (created_at event) (tombstone r target)]>
                            (deletes r)) r in
              match getEvent r target with
              | Some deletedEvent =>
                  if isDeleted r deletedEvent
                  then Some (r, removed ∪ {[id deletedEvent]})
                  else Some (r, removed)
              | None => Some (r, removed)
              end
          | None => None
          end
        else Some (r, removed)
      else Some (r, removed)
  | [] => Some (r, removed)
  end.

Fixpoint publish_tags (event : Event) (duplicate : option Event)
    (st : Repository * gset string) (l : list (list string))
    : option (Repository * gset string) :=
  match l with
  | [] => Some st
  | tag :: l' =>
      match publish_tag event duplicate st tag with
      | Some st' => publish_tags event duplicate st' l'
      | None => None
      end
  end.

(** [publish(event, {shouldNotify})].  [None]: an exception was thrown
    (the event is not trusted, or the [TypeError] of the loop over the
    tags); what a throwing call leaves of the repository is [thrown], below.
    [Some (accepted, r', u)]: the call returned [accepted], left the
    repository in [r'] and emitted the notifications [u]. *)
Definition publish (event : Event) (shouldNotify : bool) (r : Repository)
    : option (bool * Repository * list Update) :=
  if negb (isTrustedEvent event) then None
  else if bool_decide (is_Some (JsMap.get (id event) (eventsById r)))
          || isDeleted r event
  then Some (false, r, [])
  else
    let address := getAddress event in
    let duplicate := eventsByAddress r !! address in
    if match duplicate with
       | Some d => created_at event <=? created_at d
       | None => false
       end
    then Some (false, r, [])
    else
      let '(r, removed) :=
        match duplicate with
        | Some d =>
            (set_deletes (<[id d := created_at event]> (deletes r)) r,
             ({[id d]} : gset string))
        | None => (r, ∅)
        end in
      let r := set_eventsById (JsMap.set (id event) event (eventsById r)) r in
      let r := if isReplaceable event
               then set_eventsByAddress (<[address := event]> (eventsByAddress r)) r
               else r in
      let r := match wrap event with
               | Some w => set_eventsByWrap (<[w := event]> (eventsByWrap r)) r
               | None => r
               end in
      let r := set_eventsByDay
                 (_updateIndex (eventsByDay r) (getDay (created_at event))
                    event duplicate) r in
      let r := set_eventsByAuthor
                 (_updateIndex (eventsByAuthor r) (pubkey event)
                    event duplicate) r in
      match publish_tags event duplicate (r, removed) (tags event) with
      | Some (r, removed) =>
          Some (true, r,
                if shouldNotify
                then [{| added := [event]; removed := removed |}]
                else [])
      | None => None
      end.

(** *** [query] *)

(** The first own property of the filter whose key starts with [#] and has
    length 2, with the character [k[1]]. *)
Fixpoint first_tag_field (l : list (string * list string))
    : option (string * ascii * list string) :=
  match l with
  | [] => None
  | (k, values) :: l' =>
      match k with
      | String "#" (String c EmptyString) => Some (k, c, values)
      | _ => first_tag_field l'
      end
  end.

(** The narrowing step of one filter: the candidate events and the filter
    that is left to check.  [now] is the reading of the clock. *)
Definition narrow (now : Z) (r : Repository) (filter : Filter)
    : list Event * Filter :=
  match ids filter with
  | Some l =>
      (omap (λ i, JsMap.get i (eventsById r)) l, omit_ids filter)
  | None =>
      match authors filter with
      | Some l =>
          (uniq (l ≫= λ pubkey, default [] (eventsByAuthor r !! pubkey)),
           omit_authors filter)
      | None =>
          if truthy (since filter) || truthy (until filter) then
            let sinceDay := getDay (or_else (since filter) EPOCH) in
            let untilDay := getDay (or_else (until filter) now) in
            (uniq (range sinceDay (inc untilDay)
                     ≫= λ day, default [] (eventsByDay r !! day)),
             filter)
          else
            match first_tag_field (tag_fields filter) with
            | Some (k, c, values) =>
                (uniq (values
                         ≫= λ v, default [] (eventsByTag r !! String c (":" +:+ v))),
                 omit_key k filter)
            | None => (dump r, filter)
            end
      end
  end.

(** [filter.limit && chunk.length >= filter.limit] *)
Definition limit_reached (filter : Filter) (chunk : list Event) : bool :=
  truthy (limit filter)
  && (default 0 (limit filter) <=? Z.of_nat (length chunk)).

(** The loop over the sorted candidates; [chunk] is the array being
    filled. *)
Fixpoint walk (includeDeleted : bool) (r : Repository) (filter : Filter)
    (chunk : list Event) (events : list Event) : list Event :=
  match events with
  | [] => chunk
  | event :: rest =>
      if limit_reached filter chunk then chunk
      else if negb includeDeleted && isDeleted r event
      then walk includeDeleted r filter chunk rest
      else if matchFilter filter event
      then walk includeDeleted r filter (chunk ++ [event]) rest
      else walk includeDeleted r filter chunk rest
  end.

Definition query_filter (now : Z) (includeDeleted : bool) (r : Repository)
    (filter : Filter) : list Event :=
  let '(events, filter) := narrow now r filter in
  walk includeDeleted r filter [] (sortBy (λ e, - created_at e) events).

Definition query (now : Z) (filters : list Filter) (includeDeleted : bool)
    (r : Repository) : list Event :=
  uniq (flatten (query_filter now includeDeleted r <$> filters)).

(** *** [clear] and [load] *)

Definition clear (r : Repository) : Repository * list Update :=
  (empty_repository,
   [{| added := []; removed := list_to_set (JsMap.keys (eventsById r)) |}]).

(** The inner loop of [load] over one chunk; the state is the repository
    and the [added] array. *)
Fixpoint load_chunk (st : Repository * list Event) (eventsChunk : list Event)
    : option (Repository * list Event) :=
  match eventsChunk with
  | [] => Some st
  | event :: rest =>
      match publish event false st.1 with
      | Some (true, r, _) => load_chunk (r, st.2 ++ [event]) rest
      | Some (false, r, _) => load_chunk (r, st.2) rest
      | None => None
      end
  end.

Fixpoint load_chunks (st : Repository * list Event) (chunks : list (list Event))
    : option (Repository * list Event) :=
  match chunks with
  | [] => Some st
  | eventsChunk :: rest =>
      match load_chunk st eventsChunk with
      | Some st' => load_chunks st' rest
      | None => None
      end
  end.

(** [load(events, chunkSize)], run to completion: nothing else touches the
    repository while [load] sleeps between two chunks.  [removed] is the
    key set of [deletes]; the key [undefined] is not among them, since
    [clear] drops it and a [publish] call that returns does not write it. *)
Definition load (events : list Event) (chunkSize : positive) (r : Repository)
    : option (Repository * list Update) :=
  let '(r, cleared) := clear r in
  match load_chunks (r, []) (chunk chunkSize events) with
  | Some (r, added) =>
      Some (r, cleared ++ [{| added := added; removed := dom (deletes r) |}])
  | None => None
  end.

(** *** The steps of [publish], named for the proofs *)

(** The three benign rejections, in the order the code tests them. *)
Definition rejects (r : Repository) (e : Event) : Prop :=
  is_Some (JsMap.get (id e) (eventsById r))
  ∨ isDeleted r e = true
  ∨ ∃ d, eventsByAddress r !! getAddress e = Some d
         ∧ created_at e ≤ created_at d.

(** The repository after lines 157-178 of an accepting call, before the
    loop over the tags. *)
Definition stored (r : Repository) (e : Event) : Repository :=
  let duplicate := eventsByAddress r !! getAddress e in
  let r := match duplicate with
           | Some d => set_deletes (<[id d := created_at e]> (deletes r)) r
           | None => r
           end in
  let r := set_eventsById (JsMap.set (id e) e (eventsById r)) r in
  let r := if isReplaceable e
           then set_eventsByAddress (<[getAddress e := e]> (eventsByAddress r)) r
           else r in
  let r := match wrap e with
           | Some w => set_eventsByWrap (<[w := e]> (eventsByWrap r)) r
           | None => r
           end in
  let r := set_eventsByDay
             (_updateIndex (eventsByDay r) (getDay (created_at e)) e duplicate) r in
  set_eventsByAuthor
    (_updateIndex (eventsByAuthor r) (pubkey e) e duplicate) r.

Definition superseded (r : Repository) (e : Event) : gset string :=
  match eventsByAddress r !! getAddress e with
  | Some d => {[id d]}
  | None => ∅
  end.

Definition notification (shouldNotify : bool) (e : Event) (removed : gset string)
    : list Update :=
  if shouldNotify then [{| added := [e]; removed := removed |}] else [].

(** The loop over the tags touches [eventsByTag] and [deletes] only. *)
Definition same_frame (r r' : Repository) : Prop :=
  eventsById r' = eventsById r
  ∧ eventsByWrap r' = eventsByWrap r
  ∧ eventsByAddress r' = eventsByAddress r
  ∧ eventsByDay r' = eventsByDay r
  ∧ eventsByAuthor r' = eventsByAuthor r.

(** *** A [publish] call that throws *)

(** What the turn of the loop that throws leaves: line 183 has filed the
    event under the key of the tag, line 188 has written a tombstone under
    the key [undefined] ([tag[1]] of a tag without a value), and line 190
    throws on [getEvent(undefined)]. *)
Definition publish_tag_thrown (event : Event) (duplicate : option Event)
    (r : Repository) (tag : list string) : Repository :=
  let r := set_eventsByTag
             (_updateIndex (eventsByTag r) (join_colon (take 2 tag))
                event duplicate) r in
  set_deletes_undefined
    (Some (Z.max (created_at event) (or_else (deletes_undefined r) 0))) r.

(** The repository the loop over the tags leaves when it throws; [None]
    when it does not throw. *)
Fixpoint publish_tags_thrown (event : Event) (duplicate : option Event)
    (st : Repository * gset string) (l : list (list string))
    : option Repository :=
  match l with
  | [] => None
  | tag :: l' =>
      match publish_tag event duplicate st tag with
      | Some st' => publish_tags_thrown event duplicate st' l'
      | None => Some (publish_tag_thrown event duplicate st.1 tag)
      end
  end.

(** [thrown event r] is the repository a [publish] call that throws leaves
    behind, [None] when the call returns.  An event that is not trusted
    throws before anything is written; the [TypeError] of the loop comes
    after lines 157-178 and the turns of the loop before it. *)
Definition thrown (event : Event) (r : Repository) : option Repository :=
  if negb (isTrustedEvent event) then Some r
  else if bool_decide (is_Some (JsMap.get (id event) (eventsById r)))
          || isDeleted r event
  then None
  else if match eventsByAddress r !! getAddress event with
          | Some d => created_at event <=? created_at d
          | None => false
          end
  then None
  else publish_tags_thrown event (eventsByAddress r !! getAddress event)
         (stored r event, superseded r event) (tags event).

(** The repository a [load] that throws leaves: cleared, and filled up to
    the [publish] call that throws.  [None] when [load] returns. *)
Fixpoint load_chunk_thrown (r : Repository) (eventsChunk : list Event)
    : option Repository :=
  match eventsChunk with
  | [] => None
  | event :: rest =>
      match publish event false r with
      | Some (_, r', _) => load_chunk_thrown r' rest
      | None => thrown event r
      end
  end.

Definition load_thrown (events : list Event) (chunkSize : positive)
    (r : Repository) : option Repository :=
  load_chunk_thrown (clear r).1 (flatten (chunk chunkSize events)).

(** *** Reachable states *)

(** The states a repository goes through: fresh, then one [publish] call
    after the other, each of which returns or throws. *)
Inductive reachable : Repository → Prop :=
| reachable_new : reachable empty_repository
| reachable_publish r event shouldNotify accepted r' u :
    reachable r →
    publish event shouldNotify r = Some (accepted, r', u) →
    reachable r'
| reachable_thrown r event r' :
    reachable r →
    thrown event r = Some r' →
    reachable r'.

(** The states reached when every [publish] call so far has returned. *)
Inductive reachable_returning : Repository → Prop :=
| returning_new : reachable_returning empty_repository
| returning_publish r event shouldNotify accepted r' u :
    reachable_returning r →
    publish event shouldNotify r = Some (accepted, r', u) →
    reachable_returning r'.

(** *** What the properties speak about *)

(** The repository holds [e]: [e] is the value stored under its id. *)
Definition holds (r : Repository) (e : Event) : Prop :=
  (id e, e) ∈ eventsById r.

(** What [publish] keeps true of the indices the query evaluator reads. *)
Record invariant (r : Repository) : Prop := {
  inv_keys : NoDup (JsMap.keys (eventsById r));
  inv_ids : ∀ k e, (k, e) ∈ eventsById r → k = id e;
  inv_address : ∀ a d, eventsByAddress r !! a = Some d → holds r d;
  inv_day_stored :
    ∀ k l e, eventsByDay r !! k = Some l → e ∈ l → holds r e;
  inv_day_covers :
    ∀ e, holds r e →
         e ∈ default [] (eventsByDay r !! getDay (created_at e))
         ∨ created_at e < tombstone r (id e)
}.

(** The filters [{ids: l}] and [{since: T1, until: T2}]. *)
Definition ids_filter (l : list string) : Filter :=
  {| ids := Some l; authors := None; kinds := None; since := None;
     until := None; limit := None; tag_fields := [] |}.

Definition time_filter (T1 T2 : Z) : Filter :=
  {| ids := None; authors := None; kinds := None; since := Some T1;
     until := Some T2; limit := None; tag_fields := [] |}.

(** A filter without its [limit]. *)
Definition omit_limit (f : Filter) : Filter :=
  {| ids := ids f; authors := authors f; kinds := kinds f; since := since f;
     until := until f; limit := None; tag_fields := tag_fields f |}.

(** Newest first. *)
Definition newer_first (a b : Event) : Prop := created_at b ≤ created_at a.

(** The test the loop of [query] applies to a candidate. *)
Definition kept (includeDeleted : bool) (r : Repository) (filter : Filter)
    (e : Event) : bool :=
  (includeDeleted || negb (isDeleted r e)) && matchFilter filter e.

(** Filtering a full scan of the stored events by a filter, deleted events
    excluded: what the narrowing of [query] is compared with. *)
Definition full_scan_filter (r : Repository) (f : Filter) : list Event :=
  filter (λ e, kept false r f e) (dump r).

End repository.

(** ** An instance of the imported functions *)

(** The imported functions as the protocol has them, to run the code on
    examples. *)
Module Nostr.
(** The value of the first [d] tag, [""] without one. *)
Fixpoint d_tag (l : list (list string)) : string :=
  match l with
  | [] => ""
  | ("d" :: v :: _) :: _ => v
  | _ :: l' => d_tag l'
  end.

(** Modelled from the spec: [getAddress] of Address.ts is missing from the
    sources; the address is the key "[kind:pubkey:d-tag-value]", computed
    "from an event's kind, pubkey, and its d tag (empty string if absent)". *)
Definition address (e : Event) : string :=
  pretty (kind e) +:+ ":" +:+ pubkey e +:+ ":" +:+ d_tag (tags e).

(** Modelled from the spec: [isReplaceable] of Events.ts is missing from the
    sources; a replaceable event has "an event kind whose semantics say only
    the newest instance should be retained".  The spec names no kinds; these
    are the protocol's: 0, 3, 10000-19999 and 30000-39999. *)
Definition replaceable (e : Event) : bool :=
  bool_decide (kind e = 0 ∨ kind e = 3 ∨ 10000 ≤ kind e < 20000
               ∨ 30000 ≤ kind e < 40000).

(** Modelled from the spec: [isTrustedEvent], [DELETE] and [EPOCH] are
    missing from the sources; every sample event is taken as validated, "the
    deletion kind" is the protocol's kind 5, and [EPOCH] is the "epoch
    start". *)
#[global] Instance externals : Externals :=
  {| getAddress := address;
     isReplaceable := replaceable;
     isTrustedEvent := λ _, true;
     DELETE := 5;
     EPOCH := 0 |}.
End Nostr.

(** ** Sample events and repositories *)

(** [run events] publishes [events] one after the other on a fresh
    repository, notifications enabled; after a call that throws the caller
    goes on with the repository as the call left it. *)
Definition run `{Externals} (events : list Event) : Repository :=
  foldl (λ r e, match publish e true r with
                | Some (_, r', _) => r'
                | None => default r (thrown e r)
                end) empty_repository events.

Module Sample.
Definition event (i : string) (t k : Z) (tgs : list (list string)) : Event :=
  {| id := i; pubkey := "pk"; created_at := t; kind := k; tags := tgs;
     content := ""; wrap := None |}.

(** Three versions of the replaceable event at address [10000:pk:x]. *)
Definition evA : Event := event "a" 100 10000 [["d"; "x"]; ["t"; "foo"]].
Definition evB : Event := event "b" 100 10000 [["d"; "x"]].
Definition evC : Event := event "c" 101 10000 [["d"; "x"]].

(** A version of the next day. *)
Definition evN : Event := event "n" 100000 10000 [["d"; "x"]].

(** A deletion of [evA] by id. *)
Definition evD : Event := event "dd" 200 5 [["e"; "a"]].

(** A note and two deletions of it, one older and one newer. *)
Definition evX : Event := event "x" 60 1 [].
Definition del50 : Event := event "d50" 50 5 [["e"; "x"]].
Definition del70 : Event := event "d70" 70 5 [["e"; "x"]].

(** Two notes. *)
Definition note2 : Event := event "a" 2 1 [].
Definition note1 : Event := event "b" 1 1 [].

(** The filter [{ids: l, limit: n}]. *)
Definition ids_limit_filter (l : list string) (n : Z) : Filter :=
  {| ids := Some l; authors := None; kinds := None;
     since := None; until := None; limit := Some n; tag_fields := [] |}.
End Sample.

(** More sample events: one with a negative timestamp, a wrapped
    replaceable one, and a deletion with a tag that has no value. *)
Module Sample2.
Definition evNeg : Event := Sample.event "neg" (-5) 1 [].

Definition evW : Event :=
  {| id := "w1"; pubkey := "pk"; created_at := 10; kind := 10000;
     tags := [["d"; "w"]]; content := ""; wrap := Some "outer" |}.

Definition evCrash : Event := Sample.event "bad" 300 5 [["e"]].

(** A deletion whose first tag has no value; a tag [p] follows it. *)
Definition evCrash2 : Event := Sample.event "bad2" 300 5 [["e"]; ["p"; "x"]].

(** An event with the id of [Sample.evA] and a later [created_at]. *)
Definition evA500 : Event := Sample.event "a" 500 10000 [["d"; "x"]].

(** The repository the witnesses run on: [evA] superseded by [evN], [evX]
    deleted by [del70]. *)
Definition events : list Event :=
  [Sample.evA; Sample.evX; Sample.del70; Sample.evN].
End Sample2.

(** ** More about the indices *)

Section repository_indices.
Context `{Externals}.

(** [m.get(k) || []] *)
Definition bucket {K} `{Countable K} (m : gmap K (list Event)) (k : K)
    : list Event :=
  default [] (m !! k).

(** A tag [publish] files the event under: [tag[0]?.length === 1]. *)
Definition indexable (tag : list string) : Prop :=
  match tag with
  | t0 :: _ => String.length t0 = 1%nat
  | [] => False
  end.

(** The key of its bucket: [tag.slice(0, 2).join(':')]. *)
Definition tag_key (tag : list string) : string := join_colon (take 2 tag).

(** A deletion tag without a value: a one-letter name and nothing else.
    On such a tag of an event of kind [DELETE] the loop of [publish] calls
    [getEvent(undefined)]. *)
Definition valueless (tag : list string) : Prop :=
  match tag with
  | [t0] => String.length t0 = 1%nat
  | _ => False
  end.

Global Instance valueless_dec tag : Decision (valueless tag).
Proof. destruct tag as [|t0 [|? ?]]; simpl; apply _. Defined.

(** The tags up to the first valueless one, that one included. *)
Fixpoint upto_valueless (l : list (list string)) : list (list string) :=
  match l with
  | [] => []
  | tag :: l' =>
      if decide (valueless tag) then [tag] else tag :: upto_valueless l'
  end.

(** The tags of [e] the loop of [publish] gets to: all of them, unless [e]
    is of kind [DELETE] and has a valueless tag; the loop then files [e]
    under that tag and throws. *)
Definition indexed_tags (e : Event) : list (list string) :=
  if decide (kind e = DELETE) then upto_valueless (tags e) else tags e.

(** [carries], on a list of tags: one of them has [name] as its first
    element and its second element in [values]. *)
Definition tag_among (name : string) (values : list string)
    (l : list (list string)) : bool :=
  existsb (λ tag : list string,
    match tag with
    | t :: v :: _ => bool_decide (t = name) && bool_decide (v ∈ values)
    | _ => false
    end) l.

(** Whatever an index holds is a stored event, filed under its own key. *)
Record filed (r : Repository) : Prop := {
  filed_day :
    ∀ k e, e ∈ bucket (eventsByDay r) k → k = getDay (created_at e);
  filed_author :
    ∀ k e, e ∈ bucket (eventsByAuthor r) k → holds r e ∧ k = pubkey e;
  filed_tag :
    ∀ k e, e ∈ bucket (eventsByTag r) k →
           holds r e
           ∧ ∃ tag, tag ∈ indexed_tags e ∧ indexable tag ∧ k = tag_key tag;
  filed_wrap :
    ∀ w e, eventsByWrap r !! w = Some e → holds r e ∧ wrap e = Some w;
  filed_address :
    ∀ a d, eventsByAddress r !! a = Some d →
           getAddress d = a ∧ isReplaceable d = true
}.

(** A stored event is in the buckets of its author and of the tags the loop
    of [publish] got to unless its id is tombstoned; a stored replaceable event has the current event of its
    address at least as new as itself. *)
Record covered (r : Repository) : Prop := {
  covered_author :
    ∀ e, holds r e →
         e ∈ bucket (eventsByAuthor r) (pubkey e)
         ∨ created_at e < tombstone r (id e);
  covered_tag :
    ∀ e tag, holds r e → tag ∈ indexed_tags e → indexable tag →
             e ∈ bucket (eventsByTag r) (tag_key tag)
             ∨ created_at e < tombstone r (id e);
  covered_address :
    ∀ x, holds r x → isReplaceable x = true →
         ∃ d, eventsByAddress r !! getAddress x = Some d
              ∧ (x = d ∨ created_at x < created_at d)
}.

(** [takes r e r']: a [publish] call has taken [e] into [r] and left [r'],
    by returning [true] or by throwing in its loop over the tags. *)
Record takes (r : Repository) (e : Event) (r' : Repository) : Prop := {
  takes_fresh : JsMap.get (id e) (eventsById r) = None;
  takes_live : isDeleted r e = false;
  takes_newer :
    ∀ d, eventsByAddress r !! getAddress e = Some d →
         created_at d < created_at e;
  takes_frame : same_frame (stored r e) r';
  takes_tombstone : ∀ k, tombstone (stored r e) k ≤ tombstone r' k;
  takes_tag_elem :
    ∀ k x, x ∈ bucket (eventsByTag r') k →
           x ∈ bucket (eventsByTag r) k
           ∨ (x = e ∧ ∃ tag, tag ∈ indexed_tags e ∧ indexable tag
                             ∧ k = tag_key tag);
  takes_tag_keeps :
    ∀ k x, x ∈ bucket (eventsByTag r) k →
           eventsByAddress r !! getAddress e ≠ Some x →
           x ∈ bucket (eventsByTag r') k;
  takes_tag_adds :
    ∀ tag, tag ∈ indexed_tags e → indexable tag →
           e ∈ bucket (eventsByTag r') (tag_key tag)
}.

(** No timestamp below zero gets in. *)
Record nonneg (r : Repository) : Prop := {
  nonneg_tombstone : ∀ k, 0 ≤ tombstone r k;
  nonneg_stored : ∀ e, holds r e → 0 ≤ created_at e
}.

(** The filters [{authors: l}] and [{'#c': values}]. *)
Definition authors_filter (l : list string) : Filter :=
  {| ids := None; authors := Some l; kinds := None; since := None;
     until := None; limit := None; tag_fields := [] |}.

Definition tag_filter (c : ascii) (values : list string) : Filter :=
  {| ids := None; authors := None; kinds := None; since := None;
     until := None; limit := None;
     tag_fields := [(String "#" (String c EmptyString), values)] |}.
End repository_indices.

(** ** Basic facts about the building blocks *)

Section jsmap_facts.
Context {V : Type}.
Implicit Types (m : list (string * V)) (k : string) (v : V).

Lemma jsmap_set_fresh m k v :
  JsMap.get k m = None → JsMap.set k v m = m ++ [(k, v)].
Proof.
  induction m as [|[k' v'] m IH]; simpl; [done|].
  case_decide; [done|]. intros Hm. by rewrite IH.
Qed.

Lemma jsmap_get_app m1 m2 k :
  JsMap.get k (m1 ++ m2) =
  match JsMap.get k m1 with Some v => Some v | None => JsMap.get k m2 end.
Proof.
  induction m1 as [|[k' v'] m1 IH]; simpl; [done|]. by case_decide.
Qed.

Lemma jsmap_get_Some_elem m k v : JsMap.get k m = Some v → (k, v) ∈ m.
Proof.
  induction m as [|[k' v'] m IH]; simpl; [done|].
  case_decide; intros; simplify_eq; [left | right; auto].
Qed.

Lemma jsmap_get_None_keys m k : JsMap.get k m = None ↔ k ∉ JsMap.keys m.
Proof.
  unfold JsMap.keys.
  induction m as [|[k' v'] m IH]; simpl.
  - split; [intros _; apply not_elem_of_nil | done].
  - rewrite not_elem_of_cons. case_decide; naive_solver.
Qed.

Lemma jsmap_elem_get m k v :
  NoDup (JsMap.keys m) → (k, v) ∈ m → JsMap.get k m = Some v.
Proof.
  unfold JsMap.keys.
  induction m as [|[k' v'] m IH]; simpl; [by intros _ ?%elem_of_nil|].
  intros [Hk Hnd]%NoDup_cons. intros [?|Hin]%elem_of_cons; simplify_eq.
  - by rewrite decide_True.
  - rewrite decide_False; [auto|].
    intros ->. apply Hk. apply list_elem_of_fmap. by exists (k, v).
Qed.
End jsmap_facts.

Section uniq_facts.
Context {A : Type} `{EqDecision A}.
Implicit Types (l acc : list A).

Lemma uniq_fold_elem l acc x :
  x ∈ foldl uniq_step acc l ↔ x ∈ acc ∨ x ∈ l.
Proof.
  revert acc. induction l as [|y l IH]; intros acc; simpl.
  - rewrite elem_of_nil. naive_solver.
  - rewrite IH. unfold uniq_step. rewrite elem_of_cons.
    case_decide; [|rewrite elem_of_app, list_elem_of_singleton]; naive_solver.
Qed.

Lemma uniq_fold_NoDup l acc : NoDup acc → NoDup (foldl uniq_step acc l).
Proof.
  revert acc. induction l as [|y l IH]; intros acc Hacc; simpl; [done|].
  apply IH. unfold uniq_step. case_decide; [done|].
  apply NoDup_app. split_and!; [done| |apply NoDup_singleton].
  intros x Hx ->%list_elem_of_singleton. done.
Qed.

Lemma elem_of_uniq l x : x ∈ uniq l ↔ x ∈ l.
Proof.
  unfold uniq. change (x ∈ foldl uniq_step [] l ↔ x ∈ l).
  rewrite uniq_fold_elem, elem_of_nil. naive_solver.
Qed.

Lemma NoDup_uniq l : NoDup (uniq l).
Proof. apply (uniq_fold_NoDup l []), NoDup_nil_2. Qed.

Lemma uniq_fold_length l acc :
  (length (foldl uniq_step acc l) ≤ length acc + length l)%nat.
Proof.
  revert acc. induction l as [|y l IH]; intros acc; simpl; [lia|].
  etrans; [apply IH|]. unfold uniq_step.
  case_decide; [|rewrite length_app]; simpl; lia.
Qed.

Lemma uniq_length l : (length (uniq l) ≤ length l)%nat.
Proof. apply (uniq_fold_length l []). Qed.

Lemma uniq_fold_id l acc :
  NoDup (acc ++ l) → foldl uniq_step acc l = acc ++ l.
Proof.
  revert acc. induction l as [|y l IH]; intros acc Hnd; simpl.
  - by rewrite app_nil_r.
  - unfold uniq_step. rewrite decide_False.
    + rewrite IH; rewrite <- (assoc_L (++)); done.
    + apply NoDup_app in Hnd as (_ & Hnd & _). intros Hy.
      apply (Hnd y Hy). left.
Qed.

Lemma uniq_NoDup_id l : NoDup l → uniq l = l.
Proof. intros. by apply (uniq_fold_id l []). Qed.
End uniq_facts.

Section chunk_facts.
Context {A : Type}.

Lemma chunk_from_concat (n : nat) (cur xs : list A) :
  concat (chunk_from n cur xs) = cur ++ xs.
Proof.
  revert cur. induction xs as [|x xs IH]; intros cur; simpl.
  - destruct cur; simpl; by rewrite ?app_nil_r.
  - case_decide; simpl; rewrite IH; by rewrite <- (assoc_L (++)).
Qed.

Lemma chunk_concat (n : positive) (xs : list A) : concat (chunk n xs) = xs.
Proof. apply chunk_from_concat. Qed.
End chunk_facts.

(** ** The shape of [publish] *)

Section publish_facts.
Context `{Externals}.
Implicit Types (r : Repository) (e : Event).

Lemma publish_eq e n r :
  publish e n r =
  if negb (isTrustedEvent e) then None
  else if bool_decide (is_Some (JsMap.get (id e) (eventsById r)))
          || isDeleted r e
  then Some (false, r, [])
  else if match eventsByAddress r !! getAddress e with
          | Some d => created_at e <=? created_at d
          | None => false
          end
  then Some (false, r, [])
  else match publish_tags e (eventsByAddress r !! getAddress e)
               (stored r e, superseded r e) (tags e) with
       | Some (r', removed) => Some (true, r', notification n e removed)
       | None => None
       end.
Proof.
  unfold publish, stored, superseded, notification.
  destruct (eventsByAddress r !! getAddress e); reflexivity.
Qed.

Lemma rejects_test r e :
  rejects r e ↔
  (bool_decide (is_Some (JsMap.get (id e) (eventsById r))) || isDeleted r e)
  || match eventsByAddress r !! getAddress e with
     | Some d => created_at e <=? created_at d
     | None => false
     end = true.
Proof.
  unfold rejects.
  rewrite !orb_true_iff, bool_decide_eq_true.
  destruct (eventsByAddress r !! getAddress e) as [d|].
  - rewrite Z.leb_le. naive_solver.
  - naive_solver.
Qed.

Lemma publish_rejects e n r :
  isTrustedEvent e = true → rejects r e → publish e n r = Some (false, r, []).
Proof.
  intros Ht Hrej%rejects_test. rewrite publish_eq, Ht. simpl.
  apply orb_true_iff in Hrej as [->| ->]; [done|]. by case_match.
Qed.

Lemma publish_inv e n r a r' u :
  publish e n r = Some (a, r', u) →
  isTrustedEvent e = true
  ∧ ((a = false ∧ r' = r ∧ u = [] ∧ rejects r e)
     ∨ (a = true ∧ ¬ rejects r e
        ∧ ∃ removed,
            publish_tags e (eventsByAddress r !! getAddress e)
              (stored r e, superseded r e) (tags e) = Some (r', removed)
            ∧ u = notification n e removed)).
Proof.
  rewrite publish_eq, rejects_test.
  destruct (isTrustedEvent e); [simpl|done].
  destruct (bool_decide _ || _); simpl.
  { intros; simplify_eq. naive_solver. }
  case_match.
  { intros; simplify_eq. naive_solver. }
  destruct (publish_tags _ _ _ _) as [[r1 rem]|]; [|done].
  intros; simplify_eq. split; [done|]. right. split_and!; [done..|by eauto].
Qed.

Lemma publish_accepts e n r r' removed :
  isTrustedEvent e = true → ¬ rejects r e →
  publish_tags e (eventsByAddress r !! getAddress e)
    (stored r e, superseded r e) (tags e) = Some (r', removed) →
  publish e n r = Some (true, r', notification n e removed).
Proof.
  rewrite publish_eq, rejects_test. intros -> Hrej Htags. simpl.
  apply not_true_is_false, orb_false_iff in Hrej as [-> ->].
  by rewrite Htags.
Qed.

Lemma publish_tag_frame e d r s tag r' s' :
  publish_tag e d (r, s) tag = Some (r', s') → same_frame r r'.
Proof.
  unfold publish_tag, same_frame. intros Htag.
  repeat case_match; simplify_eq; done.
Qed.

Lemma publish_tags_frame e d l r s r' s' :
  publish_tags e d (r, s) l = Some (r', s') → same_frame r r'.
Proof.
  revert r s. induction l as [|tag l IH]; intros r s; cbn [publish_tags].
  - intros; simplify_eq. by unfold same_frame.
  - destruct (publish_tag e d (r, s) tag) as [[r1 s1]|] eqn:Htag; [|done].
    intros Hl%IH. apply publish_tag_frame in Htag.
    unfold same_frame in *. destruct_and!. split_and!; congruence.
Qed.

Lemma stored_eventsById r e :
  JsMap.get (id e) (eventsById r) = None →
  eventsById (stored r e) = eventsById r ++ [(id e, e)].
Proof.
  intros Hid. unfold stored.
  destruct (eventsByAddress r !! getAddress e), (isReplaceable e), (wrap e);
    simpl; by rewrite jsmap_set_fresh.
Qed.

Lemma publish_accepted_eventsById e n r r' u :
  publish e n r = Some (true, r', u) →
  eventsById r' = eventsById r ++ [(id e, e)].
Proof.
  intros (_ & [(? & _)|(_ & Hrej & rem & Htags & _)])%publish_inv; [done|].
  apply publish_tags_frame in Htags as (-> & _).
  apply stored_eventsById. unfold rejects in Hrej.
  destruct (JsMap.get _ _) eqn:?; [|done]. exfalso. apply Hrej. eauto.
Qed.


Lemma publish_twice e n n' r a r' u :
  publish e n r = Some (a, r', u) → publish e n' r' = Some (false, r', []).
Proof.
  intros Hp. destruct (publish_inv _ _ _ _ _ _ Hp) as (Ht & Hcases).
  destruct a.
  - apply publish_rejects; [done|]. left.
    rewrite (publish_accepted_eventsById _ _ _ _ _ Hp), jsmap_get_app.
    simpl. rewrite decide_True by done. destruct (JsMap.get _ _); eauto.
  - destruct Hcases as [(_ & -> & _ & Hrej)|(? & _)]; [|done].
    by apply publish_rejects.
Qed.

(** The loop throws at a valueless tag of a deletion event, and nowhere
    else. *)
Lemma publish_tag_None e d st tag :
  publish_tag e d st tag = None ↔ kind e = DELETE ∧ valueless tag.
Proof.
  destruct st as [r s]. unfold publish_tag, valueless.
  destruct tag as [|t0 [|v rest]]; simpl.
  - naive_solver.
  - repeat case_decide; naive_solver.
  - repeat case_match; naive_solver.
Qed.

Lemma publish_tags_None e d l st :
  publish_tags e d st l = None ↔ is_Some (publish_tags_thrown e d st l).
Proof.
  revert st. induction l as [|tag l IH]; intros st;
    cbn [publish_tags publish_tags_thrown].
  - split; [done|]. by intros [? ?].
  - destruct (publish_tag e d st tag); [apply IH|]. split; eauto.
Qed.

(** [publish] throws exactly when [thrown] says what it leaves. *)
Lemma publish_throws e n r : publish e n r = None ↔ is_Some (thrown e r).
Proof.
  rewrite publish_eq. unfold thrown.
  destruct (negb (isTrustedEvent e)); [split; eauto|].
  destruct (bool_decide _ || _); [split; [done|by intros [? ?]]|].
  case_match; [split; [done|by intros [? ?]]|].
  rewrite <- publish_tags_None.
  by destruct (publish_tags _ _ _ _) as [[? ?]|].
Qed.

Lemma publish_tags_no_valueless e d l st st' :
  publish_tags e d st l = Some st' → kind e = DELETE →
  Forall (λ tag, ¬ valueless tag) l.
Proof.
  intros Hl Hk. revert st Hl.
  induction l as [|tag l IH]; intros st; cbn [publish_tags]; [by constructor|].
  destruct (publish_tag e d st tag) as [st1|] eqn:Htag; [|done].
  intros Hl. constructor; [|by eapply IH].
  intros Hv. assert (publish_tag e d st tag = None) as Hnone
    by (by apply publish_tag_None).
  congruence.
Qed.

Lemma publish_tags_thrown_inv e d l st r' :
  publish_tags_thrown e d st l = Some r' →
  kind e = DELETE
  ∧ ∃ pre tag post r1 s1,
      l = pre ++ tag :: post
      ∧ Forall (λ tag, ¬ valueless tag) pre
      ∧ valueless tag
      ∧ publish_tags e d st pre = Some (r1, s1)
      ∧ r' = publish_tag_thrown e d r1 tag.
Proof.
  revert st. induction l as [|tag l IH]; intros st;
    cbn [publish_tags_thrown]; [done|].
  destruct (publish_tag e d st tag) as [st1|] eqn:Htag.
  - intros Hl. destruct (IH _ Hl)
      as (Hk & pre & tag' & post & r1 & s1 & -> & Hpre & Hv & Hp & ->).
    split; [done|]. exists (tag :: pre), tag', post, r1, s1.
    split_and!; [done| |done| |done].
    + constructor; [|done]. intros Hv'.
      assert (publish_tag e d st tag = None) as Hnone
        by (by apply publish_tag_None).
      congruence.
    + cbn [publish_tags]. by rewrite Htag.
  - intros [= <-]. apply publish_tag_None in Htag as [Hk Hv].
    split; [done|]. exists [], tag, l, st.1, st.2.
    split_and!; [done|by constructor|done| |done]. by destruct st.
Qed.

(** What a throwing call is made of. *)
Lemma thrown_inv e r r' :
  thrown e r = Some r' →
  (isTrustedEvent e = false ∧ r' = r)
  ∨ (isTrustedEvent e = true ∧ ¬ rejects r e ∧ kind e = DELETE
     ∧ ∃ pre tag post r1 s1,
         tags e = pre ++ tag :: post
         ∧ Forall (λ tag, ¬ valueless tag) pre
         ∧ valueless tag
         ∧ publish_tags e (eventsByAddress r !! getAddress e)
             (stored r e, superseded r e) pre = Some (r1, s1)
         ∧ r' = publish_tag_thrown e (eventsByAddress r !! getAddress e)
                  r1 tag).
Proof.
  unfold thrown. rewrite rejects_test.
  destruct (isTrustedEvent e); simpl; [|intros [= <-]; by left].
  destruct (bool_decide _ || _); simpl; [done|].
  case_match; [done|].
  intros (Hk & Hl)%publish_tags_thrown_inv. right. split_and!; done.
Qed.

Lemma upto_valueless_all l :
  Forall (λ tag, ¬ valueless tag) l → upto_valueless l = l.
Proof.
  induction 1 as [|tag l Htag _ IH]; cbn [upto_valueless]; [done|].
  by rewrite decide_False, IH.
Qed.

Lemma upto_valueless_app pre tag post :
  Forall (λ tag, ¬ valueless tag) pre → valueless tag →
  upto_valueless (pre ++ tag :: post) = pre ++ [tag].
Proof.
  intros Hpre Hv. induction Hpre as [|tag' pre Htag _ IH];
    cbn [upto_valueless app].
  - by rewrite decide_True.
  - by rewrite decide_False, IH.
Qed.

Lemma upto_valueless_elem l tag : tag ∈ upto_valueless l → tag ∈ l.
Proof.
  induction l as [|tag' l IH]; cbn [upto_valueless]; [done|].
  case_decide.
  - intros ->%list_elem_of_singleton. left.
  - intros [->|?]%elem_of_cons; [left|right; auto].
Qed.

Lemma indexed_tags_elem e tag : tag ∈ indexed_tags e → tag ∈ tags e.
Proof.
  unfold indexed_tags. case_decide; [apply upto_valueless_elem|done].
Qed.

(** An event whose loop ran through has all its tags indexed. *)
Lemma indexed_tags_all e :
  (kind e = DELETE → Forall (λ tag, ¬ valueless tag) (tags e)) →
  indexed_tags e = tags e.
Proof.
  intros Hall. unfold indexed_tags. case_decide; [|done].
  by apply upto_valueless_all, Hall.
Qed.
End publish_facts.

(** ** Tombstones *)

Section tombstone_facts.
Context `{Externals}.
Implicit Types (r : Repository) (e : Event).

Lemma or_else_0 (x : option Z) : or_else x 0 = default 0 x.
Proof.
  unfold or_else, truthy. destruct x as [n|]; simpl; [|done].
  destruct (Z.eqb_spec n 0); simpl; congruence.
Qed.

Lemma tombstone_lookup r k : tombstone r k = default 0 (deletes r !! k).
Proof. apply or_else_0. Qed.

Lemma isDeleted_true r e :
  isDeleted r e = true ↔
  created_at e < tombstone r (getAddress e) ∨ created_at e < tombstone r (id e).
Proof.
  unfold isDeleted, isDeletedByAddress, isDeletedById.
  by rewrite orb_true_iff, !Z.ltb_lt.
Qed.

Lemma isDeleted_false r e :
  isDeleted r e = false ↔
  tombstone r (getAddress e) ≤ created_at e ∧ tombstone r (id e) ≤ created_at e.
Proof.
  unfold isDeleted, isDeletedByAddress, isDeletedById.
  rewrite orb_false_iff, !Z.ltb_ge. done.
Qed.

(** On events of non-negative [created_at] the default [0] of a missing
    entry never counts: only a recorded timestamp deletes. *)
Lemma isDeleted_recorded r e :
  0 ≤ created_at e →
  isDeleted r e = true ↔
  ∃ k t, (k = getAddress e ∨ k = id e) ∧ deletes r !! k = Some t
         ∧ created_at e < t.
Proof.
  intros Hpos. rewrite isDeleted_true, !tombstone_lookup. split.
  - intros [Hlt|Hlt].
    + destruct (deletes r !! getAddress e) as [t|] eqn:Ht; simpl in *; [|lia].
      exists (getAddress e), t. auto.
    + destruct (deletes r !! id e) as [t|] eqn:Ht; simpl in *; [|lia].
      exists (id e), t. auto.
  - intros (k & t & [->| ->] & Hk & Hlt); rewrite Hk; simpl; auto.
Qed.

Lemma stored_tombstone_bound r e k :
  deletes r !! k = None →
  tombstone (stored r e) k = 0 ∨ tombstone (stored r e) k = created_at e.
Proof.
  intros Hk. rewrite tombstone_lookup.
  assert (deletes (stored r e) = deletes r
          ∨ ∃ d, deletes (stored r e) = <[id d := created_at e]> (deletes r))
    as [->|[d ->]].
  { unfold stored.
    destruct (eventsByAddress r !! getAddress e) as [d|];
      destruct (isReplaceable e), (wrap e); simpl; eauto. }
  - rewrite Hk. auto.
  - destruct (decide (id d = k)) as [->|Hne].
    + rewrite lookup_insert_eq. auto.
    + rewrite lookup_insert_ne, Hk by done. auto.
Qed.

End tombstone_facts.

(** ** Reloading a dump *)

Section load_facts.
Context `{Externals}.
Implicit Types (r : Repository) (e : Event).

Lemma returning_reachable r : reachable_returning r → reachable r.
Proof.
  induction 1; [apply reachable_new | by eapply reachable_publish].
Qed.

Lemma load_chunk_app st l1 l2 :
  load_chunk st (l1 ++ l2) =
  match load_chunk st l1 with
  | Some st' => load_chunk st' l2
  | None => None
  end.
Proof.
  revert st. induction l1 as [|e l1 IH]; intros st; cbn [load_chunk app]; [done|].
  destruct (publish e false st.1) as [[[[] r] u]|]; auto.
Qed.

Lemma load_chunks_concat st chunks :
  load_chunks st chunks = load_chunk st (concat chunks).
Proof.
  revert st. induction chunks as [|c chunks IH]; intros st;
    cbn [load_chunks concat]; [done|].
  rewrite load_chunk_app. destruct (load_chunk st c); auto.
Qed.


Lemma load_chunk_reachable st l st' :
  load_chunk st l = Some st' →
  reachable_returning st.1 → reachable_returning st'.1.
Proof.
  revert st. induction l as [|e l IH]; intros st; cbn [load_chunk].
  - by intros [= <-].
  - destruct (publish e false st.1) as [[[[] r] u]|] eqn:Hp; [..|done];
      intros Hl Hr; apply (IH _ Hl); simpl; by eapply returning_publish.
Qed.

(** A returning [load] leaves a repository reached by returning calls. *)
Lemma load_reachable events chunkSize r r' u :
  load events chunkSize r = Some (r', u) → reachable_returning r'.
Proof.
  unfold load, clear. rewrite load_chunks_concat, chunk_concat.
  destruct (load_chunk _ _) as [[r1 added]|] eqn:Hl; [|done].
  intros [= <- _]. apply (load_chunk_reachable _ _ _ Hl), returning_new.
Qed.


Lemma load_chunk_None st l :
  load_chunk st l = None ↔ is_Some (load_chunk_thrown st.1 l).
Proof.
  revert st. induction l as [|e l IH]; intros st;
    cbn [load_chunk load_chunk_thrown].
  - split; [done|]. by intros [? ?].
  - destruct (publish e false st.1) as [[[[] r] u]|] eqn:Hp.
    + apply (IH (r, st.2 ++ [e])).
    + apply (IH (r, st.2)).
    + split; [intros _|done]. by apply publish_throws in Hp.
Qed.

(** [load] throws exactly when [load_thrown] says what it leaves. *)
Lemma load_throws events chunkSize r :
  load events chunkSize r = None ↔ is_Some (load_thrown events chunkSize r).
Proof.
  unfold load, load_thrown, clear, flatten. cbn [fst].
  rewrite load_chunks_concat.
  rewrite <- (load_chunk_None (empty_repository, [])).
  by destruct (load_chunk _ _) as [[? ?]|].
Qed.

(** A [load] that throws leaves a reachable repository. *)
Lemma load_chunk_thrown_reachable r l r' :
  reachable r → load_chunk_thrown r l = Some r' → reachable r'.
Proof.
  revert r. induction l as [|e l IH]; intros r Hr; cbn [load_chunk_thrown];
    [done|].
  destruct (publish e false r) as [[[a r1] u]|] eqn:Hp.
  - apply IH. by eapply reachable_publish.
  - intros Ht. by eapply reachable_thrown.
Qed.

Lemma load_thrown_reachable events chunkSize r r' :
  load_thrown events chunkSize r = Some r' → reachable r'.
Proof. apply load_chunk_thrown_reachable, reachable_new. Qed.

(** Only a call that throws writes under the key [undefined]. *)
Lemma publish_tag_deletes_undefined e d r s tag r' s' :
  publish_tag e d (r, s) tag = Some (r', s') →
  deletes_undefined r' = deletes_undefined r.
Proof.
  unfold publish_tag. intros Htag. repeat case_match; simplify_eq; done.
Qed.

Lemma publish_deletes_undefined e n r a r' u :
  publish e n r = Some (a, r', u) →
  deletes_undefined r' = deletes_undefined r.
Proof.
  intros (_ & [(_ & -> & _)|(_ & _ & rem & Htags & _)])%publish_inv; [done|].
  transitivity (deletes_undefined (stored r e)).
  - revert Htags. generalize (stored r e) (superseded r e).
    induction (tags e) as [|tag l IH]; intros r0 s0; cbn [publish_tags].
    + by intros [= <- _].
    + destruct (publish_tag _ _ (r0, s0) tag) as [[r1 s1]|] eqn:Htag; [|done].
      intros Hl%IH. apply publish_tag_deletes_undefined in Htag. congruence.
  - unfold stored.
    by destruct (eventsByAddress r !! getAddress e), (isReplaceable e), (wrap e).
Qed.

Lemma returning_deletes_undefined r :
  reachable_returning r → deletes_undefined r = None.
Proof.
  induction 1 as [|r e n a r' u _ IH Hp]; [done|].
  apply publish_deletes_undefined in Hp. congruence.
Qed.

(** So the [removed] set of [load] is the whole key set of [deletes]. *)
Lemma load_deletes_undefined events chunkSize r r' u :
  load events chunkSize r = Some (r', u) → deletes_undefined r' = None.
Proof. intros Hl%load_reachable. by apply returning_deletes_undefined. Qed.
End load_facts.

(** ** The invariant of reachable repositories *)

Section invariant_facts.
Context `{Externals}.
Implicit Types (r : Repository) (e : Event).

Lemma stored_deletes r e :
  deletes (stored r e) =
  match eventsByAddress r !! getAddress e with
  | Some d => <[id d := created_at e]> (deletes r)
  | None => deletes r
  end.
Proof.
  unfold stored.
  by destruct (eventsByAddress r !! getAddress e), (isReplaceable e), (wrap e).
Qed.

Lemma stored_eventsByAddress r e :
  eventsByAddress (stored r e) =
  if isReplaceable e then <[getAddress e := e]> (eventsByAddress r)
  else eventsByAddress r.
Proof.
  unfold stored.
  by destruct (eventsByAddress r !! getAddress e), (isReplaceable e), (wrap e).
Qed.

Lemma stored_eventsByDay r e :
  eventsByDay (stored r e) =
  _updateIndex (eventsByDay r) (getDay (created_at e)) e
    (eventsByAddress r !! getAddress e).
Proof.
  unfold stored.
  by destruct (eventsByAddress r !! getAddress e), (isReplaceable e), (wrap e).
Qed.

Lemma stored_eventsByAuthor r e :
  eventsByAuthor (stored r e) =
  _updateIndex (eventsByAuthor r) (pubkey e) e
    (eventsByAddress r !! getAddress e).
Proof.
  unfold stored.
  by destruct (eventsByAddress r !! getAddress e), (isReplaceable e), (wrap e).
Qed.

Lemma stored_eventsByTag r e : eventsByTag (stored r e) = eventsByTag r.
Proof.
  unfold stored.
  by destruct (eventsByAddress r !! getAddress e), (isReplaceable e), (wrap e).
Qed.

(** [_updateIndex]: the bucket read back. *)
Lemma updateIndex_lookup {K} `{Countable K} (m : gmap K (list Event)) k e d k' :
  default [] (_updateIndex m k e d !! k') =
  if decide (k = k') then
    match d with
    | Some x => filter (λ y, y ≠ x) (default [] (m !! k))
    | None => default [] (m !! k)
    end ++ [e]
  else default [] (m !! k').
Proof.
  unfold _updateIndex. case_decide as Hk.
  - subst. by rewrite lookup_insert_eq.
  - by rewrite lookup_insert_ne.
Qed.

Lemma publish_tag_tombstone e d r s tag r' s' k :
  publish_tag e d (r, s) tag = Some (r', s') → tombstone r k ≤ tombstone r' k.
Proof.
  unfold publish_tag. intros Htag.
  assert (deletes r' = deletes r
          ∨ ∃ target, deletes r' =
              <[target := Z.max (created_at e) (tombstone r target)]> (deletes r))
    as [Heq|[target Heq]].
  { repeat case_match; simplify_eq; simpl; eauto. }
  - rewrite !tombstone_lookup, Heq. done.
  - rewrite (tombstone_lookup r'), Heq.
    destruct (decide (target = k)) as [->|Hne].
    + rewrite lookup_insert_eq. simpl. lia.
    + rewrite lookup_insert_ne by done. by rewrite tombstone_lookup.
Qed.

Lemma publish_tags_tombstone e d l r s r' s' k :
  publish_tags e d (r, s) l = Some (r', s') → tombstone r k ≤ tombstone r' k.
Proof.
  revert r s. induction l as [|tag l IH]; intros r s; cbn [publish_tags].
  - intros; simplify_eq. done.
  - destruct (publish_tag e d (r, s) tag) as [[r1 s1]|] eqn:Htag; [|done].
    intros Hl%IH. apply (publish_tag_tombstone _ _ _ _ _ _ _ k) in Htag. lia.
Qed.

Lemma holds_get r e : invariant r → holds r e → JsMap.get (id e) (eventsById r) = Some e.
Proof. intros Hinv He. apply jsmap_elem_get; [apply Hinv | done]. Qed.

Lemma get_holds r k e :
  invariant r → JsMap.get k (eventsById r) = Some e → holds r e ∧ k = id e.
Proof.
  intros Hinv Hk%jsmap_get_Some_elem.
  pose proof (inv_ids r Hinv _ _ Hk). by subst.
Qed.

Lemma holds_same_id r e1 e2 :
  invariant r → holds r e1 → holds r e2 → id e1 = id e2 → e1 = e2.
Proof.
  intros Hinv H1%holds_get H2%holds_get Hid; [|done..].
  rewrite Hid in H1. congruence.
Qed.

Lemma invariant_new : invariant empty_repository.
Proof.
  split; simpl.
  - apply NoDup_nil_2.
  - by intros k e ?%elem_of_nil.
  - by intros a d ?%lookup_empty_Some.
  - by intros k l e ?%lookup_empty_Some.
  - by intros e ?%elem_of_nil.
Qed.

(** The state before the loop over the tags satisfies the invariant. *)
Lemma invariant_stored r e :
  invariant r → ¬ rejects r e → invariant (stored r e).
Proof.
  intros Hinv Hrej.
  assert (JsMap.get (id e) (eventsById r) = None) as Hfresh.
  { destruct (JsMap.get _ _) eqn:?; [|done]. exfalso. apply Hrej. left. eauto. }
  assert (∀ d, eventsByAddress r !! getAddress e = Some d →
               created_at d < created_at e) as Hnewer.
  { intros d Hd. destruct (decide (created_at e ≤ created_at d)); [|lia].
    exfalso. apply Hrej. right. right. eauto. }
  assert (∀ x, holds (stored r e) x ↔ holds r x ∨ x = e) as Hholds.
  { intros x. unfold holds. rewrite stored_eventsById by done.
    rewrite elem_of_app, list_elem_of_singleton. naive_solver. }
  split.
  - rewrite stored_eventsById by done. unfold JsMap.keys.
    rewrite fmap_app. simpl. apply NoDup_app. split_and!.
    + apply Hinv.
    + intros k Hk ->%list_elem_of_singleton.
      by apply jsmap_get_None_keys in Hfresh.
    + apply NoDup_singleton.
  - intros k x. rewrite stored_eventsById by done.
    rewrite elem_of_app, list_elem_of_singleton.
    intros [Hx|?]; [by apply Hinv | by simplify_eq].
  - intros a d. rewrite stored_eventsByAddress, Hholds.
    destruct (isReplaceable e).
    + destruct (decide (getAddress e = a)) as [->|Hne].
      * rewrite lookup_insert_eq. intros; simplify_eq. auto.
      * rewrite lookup_insert_ne by done. intros. left. by eapply inv_address.
    + intros. left. by eapply inv_address.
  - intros k l x Hk Hx. apply Hholds.
    rewrite stored_eventsByDay in Hk.
    assert (x ∈ default [] (_updateIndex (eventsByDay r)
              (getDay (created_at e)) e (eventsByAddress r !! getAddress e) !! k))
      as Hx' by (by rewrite Hk).
    rewrite updateIndex_lookup in Hx'. case_decide.
    + apply elem_of_app in Hx' as [Hx'|Hx']; [left|right].
      * assert (x ∈ default [] (eventsByDay r !! getDay (created_at e))) as Hin.
        { destruct (eventsByAddress r !! getAddress e); [|done].
          by apply list_elem_of_filter in Hx' as [_ ?]. }
        destruct (eventsByDay r !! getDay (created_at e)) as [l'|] eqn:Hl';
          simpl in Hin; [by eapply inv_day_stored | by apply elem_of_nil in Hin].
      * by apply list_elem_of_singleton in Hx'.
    + left. destruct (eventsByDay r !! k) as [l'|] eqn:Hl'; simpl in Hx';
        [by eapply inv_day_stored | by apply elem_of_nil in Hx'].
  - intros x [Hx| ->]%Hholds.
    + rewrite stored_eventsByDay, updateIndex_lookup.
      rewrite tombstone_lookup, stored_deletes.
      destruct (inv_day_covers r Hinv x Hx) as [Hin|Hdel].
      * destruct (eventsByAddress r !! getAddress e) as [d|] eqn:Hd.
        -- destruct (decide (x = d)) as [->|Hne].
           ++ right. rewrite lookup_insert_eq. simpl. auto.
           ++ left. case_decide as Hday; [|done].
              apply elem_of_app. left. apply list_elem_of_filter.
              split; [done|]. by rewrite Hday.
        -- left. case_decide as Hday; [|done].
           apply elem_of_app. left. by rewrite Hday.
      * right. rewrite tombstone_lookup in Hdel.
        destruct (eventsByAddress r !! getAddress e) as [d|] eqn:Hd; [|done].
        destruct (decide (id d = id x)) as [Hid|Hne].
        -- assert (d = x) as ->.
           { eapply holds_same_id; [done| |done..]. by eapply inv_address. }
           rewrite lookup_insert_eq. simpl. auto.
        -- by rewrite lookup_insert_ne.
    + left. rewrite stored_eventsByDay, updateIndex_lookup.
      rewrite decide_True by done. apply elem_of_app. right.
      by apply list_elem_of_singleton.
Qed.

(** The loop over the tags keeps it: tombstones only rise there. *)
Lemma invariant_tags e d l r s r' s' :
  publish_tags e d (r, s) l = Some (r', s') → invariant r → invariant r'.
Proof.
  intros Htags Hinv.
  pose proof (publish_tags_frame _ _ _ _ _ _ _ Htags)
    as (Hid & _ & Haddr & Hday & _).
  split; unfold holds; rewrite ?Hid, ?Haddr, ?Hday; try apply Hinv.
  intros x Hx. destruct (inv_day_covers r Hinv x Hx) as [?|Hdel]; [by left|].
  right. pose proof (publish_tags_tombstone _ _ _ _ _ _ _ (id x) Htags). lia.
Qed.

Lemma invariant_publish e n r a r' u :
  publish e n r = Some (a, r', u) → invariant r → invariant r'.
Proof.
  intros (_ & [(_ & -> & _)|(_ & Hrej & rem & Htags & _)])%publish_inv Hinv;
    [done|].
  eapply invariant_tags; [done|]. by apply invariant_stored.
Qed.

(** A call that throws keeps it as well: it stops in the loop over the
    tags. *)
Lemma invariant_thrown e r r' :
  thrown e r = Some r' → invariant r → invariant r'.
Proof.
  intros [[_ ->]|(_ & Hrej & _ & pre & tag & post & r1 & s1
                  & _ & _ & _ & Htags & ->)]%thrown_inv Hinv; [done|].
  assert (invariant r1) as Hinv1.
  { eapply invariant_tags; [done|]. by apply invariant_stored. }
  split; unfold holds, publish_tag_thrown; simpl; apply Hinv1.
Qed.

Lemma reachable_invariant r : reachable r → invariant r.
Proof.
  induction 1; [apply invariant_new | by eapply invariant_publish
                | by eapply invariant_thrown].
Qed.
(** *** Tombstones written by the loop over the tags *)

Lemma publish_tag_deletes e d r s tag r' s' :
  publish_tag e d (r, s) tag = Some (r', s') →
  deletes r' = deletes r
  ∨ ∃ target, tag !! 1%nat = Some target ∧ kind e = DELETE
      ∧ deletes r' =
        <[target := Z.max (created_at e) (tombstone r target)]> (deletes r).
Proof.
  unfold publish_tag. intros Htag.
  repeat case_match; simplify_eq; simpl; eauto.
Qed.

Lemma publish_tag_tombstone_upper e d r s tag r' s' k :
  publish_tag e d (r, s) tag = Some (r', s') →
  tombstone r' k ≤ Z.max (tombstone r k) (created_at e).
Proof.
  intros [Heq|(target & _ & _ & Heq)]%publish_tag_deletes.
  - rewrite !tombstone_lookup, Heq. lia.
  - rewrite (tombstone_lookup r'), Heq.
    destruct (decide (target = k)) as [->|Hne].
    + rewrite lookup_insert_eq. simpl. lia.
    + rewrite lookup_insert_ne by done. rewrite <- tombstone_lookup. lia.
Qed.

Lemma publish_tags_tombstone_upper e d l r s r' s' k :
  publish_tags e d (r, s) l = Some (r', s') →
  tombstone r' k ≤ Z.max (tombstone r k) (created_at e).
Proof.
  revert r s. induction l as [|tag l IH]; intros r s; cbn [publish_tags].
  - intros; simplify_eq. lia.
  - destruct (publish_tag e d (r, s) tag) as [[r1 s1]|] eqn:Htag; [|done].
    intros Hl%IH. apply (publish_tag_tombstone_upper _ _ _ _ _ _ _ k) in Htag.
    lia.
Qed.

Lemma publish_tag_tombstone_target e d r s t X rest r' s' :
  kind e = DELETE → String.length t = 1%nat →
  publish_tag e d (r, s) (t :: X :: rest) = Some (r', s') →
  created_at e ≤ tombstone r' X.
Proof.
  intros Hk Ht. unfold publish_tag.
  rewrite decide_True by done. rewrite decide_True by done. cbn [lookup list_lookup].
  intros Htag.
  assert (deletes r' = <[X := Z.max (created_at e) (tombstone r X)]> (deletes r))
    as Heq.
  { repeat case_match; simplify_eq; done. }
  rewrite tombstone_lookup, Heq, lookup_insert_eq. simpl. lia.
Qed.

Lemma publish_tags_tombstone_target e d l r s t X rest r' s' :
  kind e = DELETE → String.length t = 1%nat → t :: X :: rest ∈ l →
  publish_tags e d (r, s) l = Some (r', s') →
  created_at e ≤ tombstone r' X.
Proof.
  intros Hk Ht. revert r s.
  induction l as [|tag l IH]; intros r s Hin; cbn [publish_tags].
  - by apply elem_of_nil in Hin.
  - destruct (publish_tag e d (r, s) tag) as [[r1 s1]|] eqn:Htag; [|done].
    intros Hl. apply elem_of_cons in Hin as [<-|Hin]; [|by eapply IH].
    apply publish_tag_tombstone_target in Htag; [|done..].
    pose proof (publish_tags_tombstone _ _ _ _ _ _ _ X Hl). lia.
Qed.

(** The deletion ordering guard, for any timestamps. *)
Lemma deletion_guard r D ev n r' u t rest :
  kind D = DELETE → t :: id ev :: rest ∈ tags D → String.length t = 1%nat →
  deletes r !! id ev = None → deletes r !! getAddress ev = None →
  publish D n r = Some (true, r', u) →
  (0 ≤ created_at ev → created_at D ≤ created_at ev → isDeleted r' ev = false)
  ∧ (created_at ev < created_at D → isDeleted r' ev = true).
Proof.
  intros Hk Htag Ht Hid Haddr Hp.
  apply publish_inv in Hp as (_ & [(? & _)|(_ & _ & rem & Hloop & _)]); [done|].
  pose proof (stored_tombstone_bound r D _ Hid) as Hb1.
  pose proof (stored_tombstone_bound r D _ Haddr) as Hb2.
  pose proof (publish_tags_tombstone_upper _ _ _ _ _ _ _ (id ev) Hloop) as Hu1.
  pose proof (publish_tags_tombstone_upper _ _ _ _ _ _ _ (getAddress ev) Hloop)
    as Hu2.
  pose proof (publish_tags_tombstone_target _ _ _ _ _ _ _ _ _ _ Hk Ht Htag Hloop)
    as Hlow.
  split.
  - intros Hpos Hle. apply isDeleted_false. lia.
  - intros Hlt. apply isDeleted_true. lia.
Qed.
(** *** What a supersession does *)

Lemma publish_tag_eventsByTag e d r s tag r' s' :
  publish_tag e d (r, s) tag = Some (r', s') →
  eventsByTag r' =
  match tag with
  | t0 :: _ =>
      if decide (String.length t0 = 1%nat)
      then _updateIndex (eventsByTag r) (join_colon (take 2 tag)) e d
      else eventsByTag r
  | [] => eventsByTag r
  end.
Proof.
  unfold publish_tag. intros Htag. repeat case_match; simplify_eq; done.
Qed.

Lemma updateIndex_drops {K} `{Countable K} (m : gmap K (list Event)) k e x k' :
  x ≠ e →
  (k = k' ∨ x ∉ default [] (m !! k')) →
  x ∉ default [] (_updateIndex m k e (Some x) !! k').
Proof.
  intros Hne Hk. rewrite updateIndex_lookup. case_decide as Hkk.
  - rewrite elem_of_app, list_elem_of_filter, list_elem_of_singleton. naive_solver.
  - naive_solver.
Qed.

Lemma publish_tags_drops e x l r s r' s' :
  x ≠ e →
  publish_tags e (Some x) (r, s) l = Some (r', s') →
  ∀ k, (x ∉ default [] (eventsByTag r !! k)
        ∨ ∃ t0 rest, t0 :: rest ∈ l ∧ String.length t0 = 1%nat
                     ∧ k = join_colon (take 2 (t0 :: rest))) →
       x ∉ default [] (eventsByTag r' !! k).
Proof.
  intros Hne. revert r s.
  induction l as [|tag l IH]; intros r s; cbn [publish_tags].
  - intros ? k [?|(t0 & rest & ?%elem_of_nil & _)]; by simplify_eq.
  - destruct (publish_tag e (Some x) (r, s) tag) as [[r1 s1]|] eqn:Htag; [|done].
    intros Hl k Hk. apply (IH _ _ Hl).
    apply publish_tag_eventsByTag in Htag.
    destruct Hk as [Hk|(t0 & rest & [<-|Hin]%elem_of_cons & Ht0 & ->)].
    + left. rewrite Htag. destruct tag as [|t0 rest]; [done|].
      case_decide; [|done]. apply updateIndex_drops; auto.
    + left. rewrite Htag, decide_True by done.
      apply updateIndex_drops; auto.
    + right. eauto.
Qed.

Lemma publish_tags_keeps_tombstone e d l r s r' s' k :
  publish_tags e d (r, s) l = Some (r', s') →
  deletes r !! k = Some (created_at e) → deletes r' !! k = Some (created_at e).
Proof.
  revert r s. induction l as [|tag l IH]; intros r s; cbn [publish_tags].
  - intros; by simplify_eq.
  - destruct (publish_tag e d (r, s) tag) as [[r1 s1]|] eqn:Htag; [|done].
    intros Hl Hk. apply (IH _ _ Hl).
    apply publish_tag_deletes in Htag as [->|(target & _ & _ & ->)]; [done|].
    destruct (decide (target = k)) as [->|Hne].
    + rewrite lookup_insert_eq, tombstone_lookup, Hk. simpl. f_equal. lia.
    + by rewrite lookup_insert_ne.
Qed.

(** An accepted event [e] that finds the incumbent [d] at its address: [d]
    stays stored, is tombstoned at [e]'s timestamp, and leaves the buckets
    [e] enters - the day of [e], the author of [e], the tags of [e]. *)
Lemma publish_supersedes e n r d r' u :
  invariant r →
  eventsByAddress r !! getAddress e = Some d →
  publish e n r = Some (true, r', u) →
  created_at d < created_at e
  ∧ holds r' d
  ∧ deletes r' !! id d = Some (created_at e)
  ∧ (isReplaceable e = true → eventsByAddress r' !! getAddress e = Some e)
  ∧ (d ∉ default [] (eventsByDay r' !! getDay (created_at e)))
  ∧ (d ∉ default [] (eventsByAuthor r' !! pubkey e))
  ∧ ∀ t0 rest, t0 :: rest ∈ tags e → String.length t0 = 1%nat →
      d ∉ default [] (eventsByTag r' !! join_colon (take 2 (t0 :: rest))).
Proof.
  intros Hinv Hd Hp.
  apply publish_inv in Hp as (_ & [(? & _)|(_ & Hrej & rem & Htags & _)]); [done|].
  assert (JsMap.get (id e) (eventsById r) = None) as Hfresh.
  { destruct (JsMap.get _ _) eqn:?; [|done]. exfalso. apply Hrej. left. eauto. }
  assert (holds r d) as Hholds by (by eapply inv_address).
  assert (d ≠ e) as Hne.
  { intros ->. apply holds_get in Hholds; [congruence|done]. }
  pose proof (publish_tags_frame _ _ _ _ _ _ _ Htags)
    as (Hid & _ & Haddr & Hday & Hauthor).
  rewrite Hd in Htags. split_and!.
  - destruct (decide (created_at e ≤ created_at d)); [|lia].
    exfalso. apply Hrej. right. right. eauto.
  - unfold holds. rewrite Hid, stored_eventsById by done.
    apply elem_of_app. by left.
  - eapply publish_tags_keeps_tombstone; [done|].
    rewrite stored_deletes, Hd. apply lookup_insert_eq.
  - intros Hrepl. rewrite Haddr, stored_eventsByAddress, Hrepl.
    apply lookup_insert_eq.
  - rewrite Hday, stored_eventsByDay, Hd. apply updateIndex_drops; auto.
  - rewrite Hauthor, stored_eventsByAuthor, Hd. apply updateIndex_drops; auto.
  - intros t0 rest Hin Ht0.
    eapply publish_tags_drops; [done..|]. right. eauto.
Qed.
End invariant_facts.

(** ** Last writer wins, strictly *)

Section last_writer_facts.
Context `{Externals}.
Implicit Types (r : Repository) (e : Event).

(** The loop over the tags of an event that is no deletion returns, and
    writes no tombstone. *)
Lemma publish_tags_plain e d l r s :
  kind e ≠ DELETE →
  ∃ r', publish_tags e d (r, s) l = Some (r', s) ∧ deletes r' = deletes r.
Proof.
  intros Hk. revert r. induction l as [|tag l IH]; intros r; cbn [publish_tags].
  - eauto.
  - assert (∃ r1, publish_tag e d (r, s) tag = Some (r1, s)
                  ∧ deletes r1 = deletes r) as (r1 & -> & Hd).
    { unfold publish_tag. destruct tag as [|t0 rest]; [by eauto|].
      case_decide; [|by eauto]. rewrite decide_False by done. by eauto. }
    destruct (IH r1) as (r' & -> & Hd'). exists r'. split; [done|congruence].
Qed.

(** A (100), B (100), C (101) at one replaceable address, on a fresh
    repository: B is rejected, C is accepted, A is tombstoned at 101, the
    address maps to C, A has left every day bucket, every author bucket
    and the bucket of every tag C carries. *)
Lemma last_writer_wins A B C n :
  isTrustedEvent A = true → isTrustedEvent B = true → isTrustedEvent C = true →
  isReplaceable A = true → isReplaceable C = true →
  getAddress B = getAddress A → getAddress C = getAddress A →
  pubkey C = pubkey A →
  created_at A = 100 → created_at B = 100 → created_at C = 101 →
  id C ≠ id A → kind A ≠ DELETE → kind C ≠ DELETE →
  ∃ r1 r3 u1 u3,
    publish A n empty_repository = Some (true, r1, u1)
    ∧ publish B n r1 = Some (false, r1, [])
    ∧ publish C n r1 = Some (true, r3, u3)
    ∧ deletes r3 !! id A = Some 101
    ∧ eventsByAddress r3 !! getAddress A = Some C
    ∧ holds r3 A
    ∧ (∀ k, A ∉ default [] (eventsByDay r3 !! k))
    ∧ (∀ k, A ∉ default [] (eventsByAuthor r3 !! k))
    ∧ (∀ t0 rest, t0 :: rest ∈ tags C → String.length t0 = 1%nat →
         A ∉ default [] (eventsByTag r3 !! join_colon (take 2 (t0 :: rest)))).
Proof.
  intros HtA HtB HtC HrA HrC HaB HaC Hpk HcA HcB HcC Hid HkA HkC.
  (* A enters the fresh repository *)
  assert (¬ rejects empty_repository A) as HrejA.
  { intros [[? [=]]|[Hdel|(d & Hd & _)]];
      [|simpl in Hd; by rewrite lookup_empty in Hd].
    apply isDeleted_true in Hdel. rewrite !tombstone_lookup in Hdel.
    simpl in Hdel. rewrite !lookup_empty in Hdel. simpl in Hdel. lia. }
  destruct (publish_tags_plain A (eventsByAddress empty_repository !! getAddress A)
              (tags A) (stored empty_repository A)
              (superseded empty_repository A) HkA) as (r1 & HtagsA & HdelA).
  pose proof (publish_accepts A n _ _ _ HtA HrejA HtagsA) as HpA.
  pose proof (publish_tags_frame _ _ _ _ _ _ _ HtagsA)
    as (Hid1 & _ & Haddr1 & Hday1 & Hauthor1).
  assert (reachable r1) as Hreach1
    by (eapply reachable_publish; [apply reachable_new | done]).
  pose proof (reachable_invariant _ Hreach1) as Hinv1.
  assert (eventsByAddress r1 !! getAddress A = Some A) as HaddrA.
  { rewrite Haddr1, stored_eventsByAddress, HrA. apply lookup_insert_eq. }
  assert (deletes r1 = ∅) as Hdel1.
  { rewrite HdelA, stored_deletes. simpl. by rewrite lookup_empty. }
  assert (eventsById r1 = [(id A, A)]) as HbyId1.
  { rewrite Hid1. by rewrite stored_eventsById. }
  (* B is stale *)
  assert (rejects r1 B) as HrejB.
  { right. right. exists A. rewrite HaB. split; [done|lia]. }
  (* C supersedes A *)
  assert (¬ rejects r1 C) as HrejC.
  { intros [[x Hx]|[Hdel|(d & Hd & Hle)]].
    - rewrite HbyId1 in Hx. simpl in Hx. by rewrite decide_False in Hx.
    - apply isDeleted_true in Hdel. rewrite !tombstone_lookup, Hdel1 in Hdel.
      rewrite !lookup_empty in Hdel. simpl in Hdel. lia.
    - rewrite HaC, HaddrA in Hd. simplify_eq. lia. }
  destruct (publish_tags_plain C (eventsByAddress r1 !! getAddress C)
              (tags C) (stored r1 C) (superseded r1 C) HkC)
    as (r3 & HtagsC & HdelC).
  pose proof (publish_accepts C n _ _ _ HtC HrejC HtagsC) as HpC.
  pose proof (publish_tags_frame _ _ _ _ _ _ _ HtagsC)
    as (_ & _ & _ & Hday3 & Hauthor3).
  assert (eventsByAddress r1 !! getAddress C = Some A) as HdupC
    by (by rewrite HaC).
  destruct (publish_supersedes C n r1 A r3 _ Hinv1 HdupC HpC)
    as (_ & Hholds & Htomb & Haddr3 & HdayC & HauthorC & HtagC).
  exists r1, r3, (notification n A (superseded empty_repository A)),
         (notification n C (superseded r1 C)).
  split_and!; try done.
  - by apply publish_rejects.
  - by rewrite Htomb, HcC.
  - rewrite <- HaC. by apply Haddr3.
  - intros k. destruct (decide (k = getDay (created_at C))) as [->|Hk]; [done|].
    rewrite Hday3, stored_eventsByDay, updateIndex_lookup.
    rewrite decide_False by done.
    rewrite Hday1, stored_eventsByDay, updateIndex_lookup. simpl.
    rewrite decide_False by (by rewrite HcA; rewrite HcC in Hk).
    rewrite lookup_empty. apply not_elem_of_nil.
  - intros k. destruct (decide (k = pubkey C)) as [->|Hk]; [done|].
    rewrite Hauthor3, stored_eventsByAuthor, updateIndex_lookup.
    rewrite decide_False by done.
    rewrite Hauthor1, stored_eventsByAuthor, updateIndex_lookup. simpl.
    rewrite decide_False by (by rewrite <- Hpk).
    rewrite lookup_empty. apply not_elem_of_nil.
Qed.
End last_writer_facts.

(** ** The query evaluator *)

Section query_facts.
Context `{Externals}.
Implicit Types (r : Repository) (e : Event) (f : Filter).

Lemma walk_step incl r f chunk e rest :
  limit_reached f chunk = false →
  walk incl r f chunk (e :: rest) =
  walk incl r f (if kept incl r f e then chunk ++ [e] else chunk) rest.
Proof.
  intros Hlim. cbn [walk]. rewrite Hlim. unfold kept.
  by destruct incl, (isDeleted r e), (matchFilter f e).
Qed.

Lemma filter_kept_cons incl r f e l :
  filter (λ x, kept incl r f x) (e :: l) =
  (if kept incl r f e then [e] else []) ++ filter (λ x, kept incl r f x) l.
Proof.
  destruct (kept incl r f e) eqn:Hk.
  - rewrite filter_cons_True; [done|]. by rewrite Hk.
  - rewrite filter_cons_False; [done|]. rewrite Hk. simpl. tauto.
Qed.

Lemma walk_unlimited incl r f chunk events :
  truthy (limit f) = false →
  walk incl r f chunk events = chunk ++ filter (λ e, kept incl r f e) events.
Proof.
  intros Hlim. revert chunk.
  induction events as [|e events IH]; intros chunk.
  - cbn [walk]. by rewrite app_nil_r.
  - rewrite walk_step by (unfold limit_reached; by rewrite Hlim).
    rewrite IH, filter_kept_cons.
    destruct (kept incl r f e); [|done]. by rewrite <- (assoc_L (++)).
Qed.

(** With a limit [N ≥ 1] the loop keeps the first [N] candidates that pass
    the test. *)
Lemma walk_limited incl r f chunk events N :
  limit f = Some N → 0 < N → (length chunk ≤ Z.to_nat N)%nat →
  walk incl r f chunk events =
  chunk ++ take (Z.to_nat N - length chunk) (filter (λ e, kept incl r f e) events).
Proof.
  intros Hlim HN. revert chunk.
  induction events as [|e events IH]; intros chunk Hlen.
  - cbn [walk]. by rewrite filter_nil, take_nil, app_nil_r.
  - assert (limit_reached f chunk = (N <=? Z.of_nat (length chunk))) as Hreached.
    { unfold limit_reached. rewrite Hlim. cbn [truthy default].
      by rewrite (proj2 (Z.eqb_neq N 0)) by lia. }
    destruct (Z.leb_spec N (Z.of_nat (length chunk))) as [Hfull|Hroom].
    { cbn [walk]. rewrite Hreached.
      replace (Z.to_nat N - length chunk)%nat with 0%nat by lia.
      by rewrite take_0, app_nil_r. }
    rewrite walk_step by done. rewrite filter_kept_cons.
    destruct (kept incl r f e); simpl; [|by apply IH].
    rewrite IH by (rewrite length_app; simpl; lia).
    rewrite length_app. simpl.
    replace (Z.to_nat N - length chunk)%nat
      with (S (Z.to_nat N - (length chunk + 1)))%nat by lia.
    simpl. by rewrite <- (assoc_L (++)).
Qed.

Lemma query_single now f incl r :
  query now [f] incl r = uniq (query_filter now incl r f).
Proof. unfold query, flatten. simpl. by rewrite app_nil_r. Qed.

Lemma elem_of_sortBy {A} (key : A → Z) (l : list A) x : x ∈ sortBy key l ↔ x ∈ l.
Proof. unfold sortBy. by rewrite merge_sort_Permutation. Qed.

Lemma keys_values_ids (m : list (string * Event)) :
  (∀ k e, (k, e) ∈ m → k = id e) → JsMap.keys m = id <$> JsMap.values m.
Proof.
  unfold JsMap.keys, JsMap.values.
  induction m as [|[k e] m IH]; intros Hm; [done|].
  rewrite !fmap_cons. simpl. f_equal.
  - apply Hm. left.
  - apply IH. intros k' e' Hin. apply Hm. by right.
Qed.

Lemma dump_NoDup r : invariant r → NoDup (dump r).
Proof.
  intros Hinv. apply (NoDup_fmap_1 id). unfold dump.
  rewrite <- keys_values_ids; apply Hinv.
Qed.

Lemma elem_of_dump r e : invariant r → e ∈ dump r ↔ holds r e.
Proof.
  intros Hinv. unfold dump, JsMap.values, holds. rewrite list_elem_of_fmap. split.
  - intros ([k x] & -> & Hin). simpl.
    by rewrite <- (inv_ids r Hinv _ _ Hin).
  - intros Hin. by exists (id e, e).
Qed.

Lemma elem_of_by_ids r (l : list string) e :
  invariant r →
  e ∈ omap (λ i, JsMap.get i (eventsById r)) l ↔ holds r e ∧ id e ∈ l.
Proof.
  intros Hinv. rewrite list_elem_of_omap. split.
  - intros (i & Hi & Hget). apply get_holds in Hget as [? ->]; done.
  - intros [He Hin]. exists (id e). split; [done|]. by apply holds_get.
Qed.

Lemma getDay_mono a b : a ≤ b → getDay a ≤ getDay b.
Proof. intros. unfold getDay, DAY. by apply Z.div_le_mono. Qed.

Lemma getDay_nonneg a : 0 ≤ a → 0 ≤ getDay a.
Proof. intros. unfold getDay, DAY. by apply Z.div_pos. Qed.

Lemma getDay_first a : a < DAY → getDay a ≤ 0.
Proof.
  intros. unfold getDay, DAY in *. apply Z.lt_succ_r.
  apply Z.div_lt_upper_bound; lia.
Qed.

Lemma elem_of_range a b x : x ∈ range a b ↔ a ≤ x < b.
Proof. unfold range. rewrite elem_of_seqZ. lia. Qed.

(** The candidates the day buckets give for a span of days. *)
Lemma elem_of_by_days r lo hi e :
  invariant r →
  e ∈ (range lo (inc hi) ≫= λ day, default [] (eventsByDay r !! day)) →
  holds r e.
Proof.
  intros Hinv. rewrite list_elem_of_bind. intros (day & Hin & _).
  destruct (eventsByDay r !! day) as [l|] eqn:Hday; simpl in Hin;
    [by eapply inv_day_stored | by apply elem_of_nil in Hin].
Qed.

Lemma by_days_covers r lo hi e :
  invariant r → holds r e → isDeleted r e = false →
  lo ≤ getDay (created_at e) ≤ hi →
  e ∈ (range lo (inc hi) ≫= λ day, default [] (eventsByDay r !! day)).
Proof.
  intros Hinv He Hdel Hspan. rewrite list_elem_of_bind.
  exists (getDay (created_at e)). split.
  - destruct (inv_day_covers r Hinv e He) as [?|Hts]; [done|].
    apply isDeleted_false in Hdel. lia.
  - apply elem_of_range. unfold inc. lia.
Qed.

Lemma matchFilter_time T1 T2 e :
  matchFilter (time_filter T1 T2) e = true ↔ T1 ≤ created_at e ≤ T2.
Proof.
  unfold matchFilter, time_filter. simpl.
  rewrite andb_true_r, andb_true_iff, !Z.leb_le. done.
Qed.

Lemma matchFilter_ids (l : list string) e :
  matchFilter (ids_filter l) e = true ↔ id e ∈ l.
Proof.
  unfold matchFilter, ids_filter. simpl.
  rewrite !andb_true_r. apply bool_decide_eq_true.
Qed.

Lemma kept_true incl r f e :
  kept incl r f e = true ↔
  (incl = true ∨ isDeleted r e = false) ∧ matchFilter f e = true.
Proof.
  unfold kept. rewrite andb_true_iff, orb_true_iff, negb_true_iff. done.
Qed.
(** *** The limit *)

Lemma narrow_limit now r f : limit (narrow now r f).2 = limit f.
Proof.
  unfold narrow.
  destruct (ids f), (authors f); [done..|].
  destruct (truthy (since f) || truthy (until f)); [done|].
  by destruct (first_tag_field (tag_fields f)) as [[[? ?] ?]|].
Qed.

Lemma narrow_omit_limit now r f :
  narrow now r (omit_limit f)
  = ((narrow now r f).1, omit_limit (narrow now r f).2).
Proof.
  unfold narrow. cbn [omit_limit ids authors since until tag_fields].
  destruct (ids f), (authors f); [done..|].
  destruct (truthy (since f) || truthy (until f)); [done|].
  by destruct (first_tag_field (tag_fields f)) as [[[? ?] ?]|].
Qed.

(** With [limit: N], [N ≥ 1], one filter yields the first [N] of what it
    yields without the limit ... *)
Lemma query_filter_limited now incl r f N :
  limit f = Some N → 0 < N →
  query_filter now incl r f
  = take (Z.to_nat N) (query_filter now incl r (omit_limit f)).
Proof.
  intros Hlim HN. unfold query_filter.
  rewrite narrow_omit_limit.
  pose proof (narrow_limit now r f) as Hlim'. rewrite Hlim in Hlim'.
  destruct (narrow now r f) as [events f']. cbn [fst snd] in *.
  rewrite (walk_limited _ _ _ _ _ N) by (simpl; done || lia).
  rewrite walk_unlimited by done. cbn [app length].
  by rewrite Nat.sub_0_r.
Qed.

Lemma query_filter_at_most now incl r f N :
  limit f = Some N → 0 < N →
  (length (query now [f] incl r) ≤ Z.to_nat N)%nat.
Proof.
  intros Hlim HN. rewrite query_single.
  etrans; [apply uniq_length|].
  rewrite (query_filter_limited _ _ _ _ N) by done.
  rewrite length_take. lia.
Qed.

Lemma newer_first_sortBy (l : list Event) :
  StronglySorted newer_first (sortBy (λ e, - created_at e) l).
Proof.
  assert (StronglySorted (byKey (λ e, - created_at e))
            (sortBy (λ e, - created_at e) l)) as Hs.
  { apply StronglySorted_merge_sort.
    - intros a b c. unfold byKey. lia.
    - intros a b. unfold byKey. lia. }
  induction Hs as [|x l' _ IH Hall]; constructor; [done|].
  eapply Forall_impl; [done|]. unfold byKey, newer_first. intros; simpl in *; lia.
Qed.

Lemma StronglySorted_filter {A} (R : A → A → Prop) (P : A → Prop)
    `{∀ x, Decision (P x)} (l : list A) :
  StronglySorted R l → StronglySorted R (filter P l).
Proof.
  induction 1 as [|x l _ IH Hall]; [constructor|].
  rewrite filter_cons. case_decide; [|done].
  constructor; [done|].
  apply Forall_forall. intros y [_ Hy]%list_elem_of_filter.
  by eapply (proj1 (Forall_forall _ _)).
Qed.

(** ... and what it yields without the limit is ordered newest first. *)
Lemma query_filter_newer_first now incl r f :
  StronglySorted newer_first (query_filter now incl r (omit_limit f)).
Proof.
  unfold query_filter. rewrite narrow_omit_limit.
  destruct (narrow now r f) as [events f']. cbn [fst snd].
  rewrite walk_unlimited by done. cbn [app].
  apply StronglySorted_filter, newer_first_sortBy.
Qed.
End query_facts.

(** ** Running the samples *)

Section run_facts.
Context `{Externals}.

Lemma run_reachable (events : list Event) : reachable (run events).
Proof.
  unfold run. generalize reachable_new. generalize empty_repository.
  induction events as [|e events IH]; intros r Hr; simpl; [done|].
  apply IH. destruct (publish e true r) as [[[a r'] u]|] eqn:Hp.
  - by eapply reachable_publish.
  - destruct (thrown e r) as [r'|] eqn:Ht; [|done].
    by eapply reachable_thrown.
Qed.
End run_facts.

(** ** The properties of the specification *)

Section properties.
Context `{Externals}.
Implicit Types (r : Repository) (e : Event).

(** Claim C4.  After a deletion event [D] that references the id of [ev] in
    one of its tags has been published on a repository without a tombstone
    for [ev], an [ev] with [created_at = 60] is not deleted when [D] has
    [created_at = 50] and is deleted when [D] has [created_at = 70].  In
    general [isDeleted] holds iff the tombstone timestamp of the event's
    address or id, read as the code reads it ([this.deletes.get(k) || 0]),
    strictly exceeds the event's [created_at]; on events with
    [created_at ≥ 0] that is: iff a timestamp recorded for the address or
    the id strictly exceeds it. *)
Theorem deletion_ordering_guard r D ev n r' u t rest :
  kind D = DELETE → t :: id ev :: rest ∈ tags D → String.length t = 1%nat →
  created_at ev = 60 →
  deletes r !! id ev = None → deletes r !! getAddress ev = None →
  publish D n r = Some (true, r', u) →
  (created_at D = 50 → isDeleted r' ev = false)
  ∧ (created_at D = 70 → isDeleted r' ev = true)
  ∧ (∀ r0 e, isDeleted r0 e = true ↔
             created_at e < tombstone r0 (getAddress e)
             ∨ created_at e < tombstone r0 (id e))
  ∧ (∀ r0 e, 0 ≤ created_at e →
             isDeleted r0 e = true ↔
             ∃ k ts, (k = getAddress e ∨ k = id e)
                     ∧ deletes r0 !! k = Some ts ∧ created_at e < ts).
Proof.
  intros Hk Htags Ht Hev Hid Haddr Hp.
  destruct (deletion_guard r D ev n r' u t rest) as [Hold Hnew]; [done..|].
  split_and!.
  - intros HD. apply Hold; lia.
  - intros HD. apply Hnew; lia.
  - apply isDeleted_true.
  - apply isDeleted_recorded.
Qed.

(** Claim C5.  A [publish] call on a trusted event whose id is already
    present, that is tombstoned, or that is a stale replacement returns
    [false], emits nothing and leaves the repository - every index and the
    tombstone table - as it was; whenever [publish] returns [false] the
    repository is unchanged; and publishing an event again after a call
    that returned yields [false] and changes nothing. *)
Theorem publish_rejection_changes_nothing e n r :
  isTrustedEvent e = true →
  (rejects r e → publish e n r = Some (false, r, []))
  ∧ (∀ r' u, publish e n r = Some (false, r', u) → r' = r ∧ u = [])
  ∧ (∀ a r' u n', publish e n r = Some (a, r', u) →
                  publish e n' r' = Some (false, r', [])).
Proof.
  intros Ht. split_and!.
  - by apply publish_rejects.
  - intros r' u (_ & [(_ & -> & -> & _)|(? & _)])%publish_inv; done.
  - intros a r' u n'. apply publish_twice.
Qed.

(** Claim C6.  On a repository reached by [publish] calls,
    [query([{since: T1, until: T2}])] with [T1 ≤ T2] returns, each once,
    exactly the stored events with [T1 ≤ created_at ≤ T2] that are not
    deleted, wherever [T1] and [T2] fall in their days.  A bound given as
    [0] is falsy: the code then narrows with its default ([EPOCH] for
    [since], the clock for [until]), which has to reach as far as [0]. *)
Theorem query_time_range now r T1 T2 :
  reachable r → T1 ≤ T2 →
  (T1 = 0 → T2 ≠ 0 → EPOCH < DAY) →
  (T2 = 0 → T1 ≠ 0 → 0 ≤ now) →
  query now [time_filter T1 T2] false r
  ≡ₚ filter (λ e, T1 ≤ created_at e ≤ T2 ∧ isDeleted r e = false) (dump r).
Proof.
  intros Hinv%reachable_invariant Hle Hsince Huntil.
  apply NoDup_Permutation.
  { rewrite query_single. apply NoDup_uniq. }
  { apply NoDup_filter. by apply dump_NoDup. }
  intros e. rewrite query_single, elem_of_uniq, list_elem_of_filter.
  rewrite elem_of_dump by done.
  unfold query_filter, narrow. cbn [time_filter ids authors since until tag_fields].
  destruct (truthy (Some T1) || truthy (Some T2)) eqn:Hbranch.
  - rewrite walk_unlimited by done. cbn [app].
    rewrite list_elem_of_filter, elem_of_sortBy, elem_of_uniq.
    rewrite Is_true_true, kept_true, matchFilter_time. split.
    + intros [[[[=]|Hdel] Hspan] Hin]. split; [by split|].
      by eapply elem_of_by_days.
    + intros [[Hspan Hdel] He]. split; [by auto|].
      apply by_days_covers; [done..|].
      pose proof (getDay_mono T1 (created_at e)) as Hlo.
      pose proof (getDay_mono (created_at e) T2) as Hhi.
      pose proof (getDay_nonneg (created_at e)) as Hpos.
      pose proof (getDay_mono (created_at e) 0) as Hneg.
      pose proof (getDay_first EPOCH) as Hepoch.
      pose proof (getDay_nonneg now) as Hnow.
      change (getDay 0) with 0 in Hneg.
      unfold or_else, truthy in *. cbn [default from_option Datatypes.id].
      destruct (Z.eqb_spec T1 0) as [->|HT1], (Z.eqb_spec T2 0) as [->|HT2];
        cbn [negb orb] in *; try done; lia.
  - cbn [first_tag_field]. rewrite walk_unlimited by done. cbn [app].
    rewrite list_elem_of_filter, elem_of_sortBy, elem_of_dump by done.
    rewrite Is_true_true, kept_true, matchFilter_time. naive_solver.
Qed.

(** Claim C7.  On a repository reached by [publish] calls, the result of
    [query([{ids: l}])] is, up to order, the result of filtering a full
    scan of the stored events by the same filter with the same exclusion of
    deleted events: the narrowing by [ids] changes no result. *)
Theorem query_ids_narrowing now r (l : list string) :
  reachable r →
  query now [ids_filter l] false r ≡ₚ full_scan_filter r (ids_filter l).
Proof.
  intros Hinv%reachable_invariant.
  apply NoDup_Permutation.
  { rewrite query_single. apply NoDup_uniq. }
  { apply NoDup_filter. by apply dump_NoDup. }
  intros e. rewrite query_single, elem_of_uniq.
  unfold full_scan_filter. rewrite list_elem_of_filter, elem_of_dump by done.
  unfold query_filter, narrow. cbn [ids_filter ids].
  rewrite walk_unlimited by done. cbn [app].
  rewrite list_elem_of_filter, elem_of_sortBy, elem_of_by_ids by done.
  rewrite !Is_true_true, !kept_true, matchFilter_ids.
  assert (matchFilter (omit_ids (ids_filter l)) e = true) as -> by done.
  naive_solver.
Qed.
End properties.

(** ** The samples, run *)

(** Claim C1 fails on the code: the tombstone of a replaceable event that
    was deleted by id at 200 is rewound to 101 when a version of 101
    supersedes it, since the supersession path writes the timestamp without
    the max-merge of the deletion path. *)
Theorem tombstone_rewound_by_supersession :
  deletes (run [Sample.evA; Sample.evD]) !! "a" = Some 200
  ∧ publish Sample.evC true (run [Sample.evA; Sample.evD])
    = Some (true, run [Sample.evA; Sample.evD; Sample.evC],
            [{| added := [Sample.evC]; removed := {["a"]} |}])
  ∧ deletes (run [Sample.evA; Sample.evD; Sample.evC]) !! "a" = Some 101.
Proof. split_and!; vm_compute; reflexivity. Qed.

(** Claim C2 fails on the code: [_updateIndex] drops the incumbent from the
    bucket the new event enters only.  A version of the next day supersedes
    [evA]; [evA] stays in the bucket of its own day and in the bucket of the
    tag the new version does not carry. *)
Theorem superseded_event_left_in_buckets :
  let r := run [Sample.evA] in
  let r' := run [Sample.evA; Sample.evN] in
  eventsByAddress r !! getAddress Sample.evN = Some Sample.evA
  ∧ publish Sample.evN true r
    = Some (true, r', [{| added := [Sample.evN]; removed := {["a"]} |}])
  ∧ eventsByAddress r' !! getAddress Sample.evN = Some Sample.evN
  ∧ deletes r' !! "a" = Some 100000
  ∧ eventsByDay r' !! getDay (created_at Sample.evA) = Some [Sample.evA]
  ∧ eventsByTag r' !! "t:foo" = Some [Sample.evA]
  ∧ eventsByAuthor r' !! "pk" = Some [Sample.evN].
Proof. cbv zeta. split_and!; vm_compute; reflexivity. Qed.

(** Claim C3 fails on the code in its tag buckets: after A (100), B (100)
    and C (101) at one address, B is rejected, C is accepted, A is
    tombstoned at 101 and gone from its day and author buckets, the address
    maps to C - and A is still in the bucket of its tag [t:foo], which C
    does not carry. *)
Theorem last_writer_wins_tag_bucket :
  let r1 := run [Sample.evA] in
  let r3 := run [Sample.evA; Sample.evB; Sample.evC] in
  publish Sample.evA true empty_repository
  = Some (true, r1, [{| added := [Sample.evA]; removed := ∅ |}])
  ∧ publish Sample.evB true r1 = Some (false, r1, [])
  ∧ publish Sample.evC true r1
    = Some (true, r3, [{| added := [Sample.evC]; removed := {["a"]} |}])
  ∧ deletes r3 !! "a" = Some 101
  ∧ eventsByAddress r3 !! getAddress Sample.evA = Some Sample.evC
  ∧ eventsByDay r3 !! 0 = Some [Sample.evC]
  ∧ eventsByAuthor r3 !! "pk" = Some [Sample.evC]
  ∧ eventsByTag r3 !! "d:x" = Some [Sample.evC]
  ∧ eventsByTag r3 !! "t:foo" = Some [Sample.evA].
Proof. cbv zeta. split_and!; vm_compute; reflexivity. Qed.

(** Claim C8 fails on the code when [ids] repeats an id: the candidates of
    the [ids] path are not deduplicated, the repeated event fills the limit
    twice, and [query([{ids: [a, a, b], limit: 2}])] returns one event where
    two match. *)
Theorem limit_filled_by_repeated_id :
  let r := run [Sample.note2; Sample.note1] in
  query 0 [Sample.ids_limit_filter ["a"; "a"; "b"] 2] false r = [Sample.note2]
  ∧ query 0 [ids_filter ["a"; "a"; "b"]] false r = [Sample.note2; Sample.note1]
  ∧ query 0 [Sample.ids_limit_filter ["a"; "b"] 2] false r
    = [Sample.note2; Sample.note1].
Proof. cbv zeta. split_and!; vm_compute; reflexivity. Qed.

(** Claim C9 fails on the code once a [publish] call has thrown.  On a
    deletion event with a tag that has no value, [publish] throws the
    [TypeError] of [getEvent(undefined)] (line 190) after it has stored the
    event (line 164): the event stays in [eventsById].  Here [evCrash] is
    published, the call throws, and [evA] is published after it.  [dump]
    lists both; [load] of the dump throws on [evCrash] in turn and leaves
    a repository that holds [evCrash] alone: [eventsById] and the result of
    [query([{ids: ['a']}])] differ from those of the dumped repository. *)
Theorem dump_load_breaks_after_throw :
  let r := run [Sample2.evCrash; Sample.evA] in
  publish Sample2.evCrash true empty_repository = None
  ∧ thrown Sample2.evCrash empty_repository = Some (run [Sample2.evCrash])
  ∧ eventsById (run [Sample2.evCrash]) = [("bad", Sample2.evCrash)]
  ∧ eventsByTag (run [Sample2.evCrash]) !! "e" = Some [Sample2.evCrash]
  ∧ deletes_undefined (run [Sample2.evCrash]) = Some 300
  ∧ publish Sample.evA true (run [Sample2.evCrash])
    = Some (true, r, [{| added := [Sample.evA]; removed := ∅ |}])
  ∧ dump r = [Sample2.evCrash; Sample.evA]
  ∧ query 0 [ids_filter ["a"]] false r = [Sample.evA]
  ∧ load (dump r) 1000 empty_repository = None
  ∧ ∃ r', load_thrown (dump r) 1000 empty_repository = Some r'
          ∧ eventsById r' = [("bad", Sample2.evCrash)]
          ∧ eventsById r' ≠ eventsById r
          ∧ query 0 [ids_filter ["a"]] false r' = [].
Proof.
  cbv zeta. split_and!; [vm_compute; reflexivity..|].
  eexists. split_and!; [vm_compute; reflexivity..| |vm_compute; reflexivity].
  vm_compute. discriminate.
Qed.

(** The guard of C4 on [evX] (60) and its deletions of 50 and of 70. *)
Lemma deletion_ordering_guard_witness :
  isDeleted (run [Sample.del50]) Sample.evX = false
  ∧ isDeleted (run [Sample.del70]) Sample.evX = true.
Proof.
  split.
  - refine (proj1 (deletion_ordering_guard empty_repository Sample.del50
                     Sample.evX true (run [Sample.del50])
                     [{| added := [Sample.del50]; removed := ∅ |}] "e" []
                     _ _ _ _ _ _ _) _);
      first [left | vm_compute; reflexivity].
  - refine (proj1 (proj2 (deletion_ordering_guard empty_repository Sample.del70
                     Sample.evX true (run [Sample.del70])
                     [{| added := [Sample.del70]; removed := ∅ |}] "e" []
                     _ _ _ _ _ _ _)) _);
      first [left | vm_compute; reflexivity].
Defined.

(** C5 on [evA], published a second time. *)
Lemma publish_rejection_changes_nothing_witness :
  publish Sample.evA true (run [Sample.evA])
  = Some (false, run [Sample.evA], []).
Proof.
  refine (proj1 (publish_rejection_changes_nothing Sample.evA true
                   (run [Sample.evA]) _) _).
  - reflexivity.
  - left. exists Sample.evA. vm_compute. reflexivity.
Defined.

(** C9 on a repository with a superseded and a deleted event. *)

(** C10 on [evA], stored, and on the stale [evB] at its address. *)

(** C6 on a span that starts at 0 and crosses a day boundary. *)
Lemma query_time_range_witness :
  query 200000 [time_filter 0 100000] false
    (run [Sample.evA; Sample.evX; Sample.del70; Sample.evN])
  ≡ₚ filter (λ e, 0 ≤ created_at e ≤ 100000
                  ∧ isDeleted (run [Sample.evA; Sample.evX; Sample.del70;
                                    Sample.evN]) e = false)
       (dump (run [Sample.evA; Sample.evX; Sample.del70; Sample.evN])).
Proof.
  apply (query_time_range 200000
           (run [Sample.evA; Sample.evX; Sample.del70; Sample.evN]) 0 100000).
  - apply run_reachable.
  - lia.
  - intros _ _. reflexivity.
  - lia.
Defined.

(** C7 on ids that are stored, repeated, deleted and unknown. *)
Lemma query_ids_narrowing_witness :
  query 0 [ids_filter ["n"; "a"; "n"; "x"; "zz"]] false
    (run [Sample.evA; Sample.evX; Sample.del70; Sample.evN])
  ≡ₚ full_scan_filter
       (run [Sample.evA; Sample.evX; Sample.del70; Sample.evN])
       (ids_filter ["n"; "a"; "n"; "x"; "zz"]).
Proof.
  apply (query_ids_narrowing 0
           (run [Sample.evA; Sample.evX; Sample.del70; Sample.evN])
           ["n"; "a"; "n"; "x"; "zz"]).
  apply run_reachable.
Defined.

(** ** The indices of reachable repositories *)

Section index_facts.
Context `{Externals}.
Implicit Types (r : Repository) (e x : Event).

Lemma bucket_updateIndex {K} `{Countable K} (m : gmap K (list Event)) k e d k' :
  bucket (_updateIndex m k e d) k' =
  if decide (k = k') then
    match d with
    | Some y => filter (λ z, z ≠ y) (bucket m k)
    | None => bucket m k
    end ++ [e]
  else bucket m k'.
Proof. apply updateIndex_lookup. Qed.

Lemma updateIndex_elem {K} `{Countable K} (m : gmap K (list Event)) k e d k' x :
  x ∈ bucket (_updateIndex m k e d) k' →
  (x = e ∧ k = k') ∨ x ∈ bucket m k'.
Proof.
  rewrite bucket_updateIndex. case_decide as Hk; [subst k'|by right].
  rewrite elem_of_app, list_elem_of_singleton. intros [Hx|Hx]; [right|by left].
  destruct d; [by apply list_elem_of_filter in Hx as [_ ?]|done].
Qed.

Lemma updateIndex_keeps {K} `{Countable K} (m : gmap K (list Event)) k e d k' x :
  x ∈ bucket m k' → (∀ y, d = Some y → x ≠ y) →
  x ∈ bucket (_updateIndex m k e d) k'.
Proof.
  intros Hx Hd. rewrite bucket_updateIndex. case_decide as Hk; [subst k'|done].
  apply elem_of_app. left. destruct d as [y|]; [|done].
  apply list_elem_of_filter. split; [by apply Hd|done].
Qed.

Lemma updateIndex_adds {K} `{Countable K} (m : gmap K (list Event)) k e d :
  e ∈ bucket (_updateIndex m k e d) k.
Proof.
  rewrite bucket_updateIndex, decide_True by done.
  apply elem_of_app. right. by apply list_elem_of_singleton.
Qed.

Lemma publish_tag_bucket e d r s tag r' s' :
  publish_tag e d (r, s) tag = Some (r', s') →
  eventsByTag r' = eventsByTag r ∧ ¬ indexable tag
  ∨ eventsByTag r' = _updateIndex (eventsByTag r) (tag_key tag) e d
    ∧ indexable tag.
Proof.
  intros Htag%publish_tag_eventsByTag. rewrite Htag. unfold indexable, tag_key.
  destruct tag as [|t0 rest]; [by left; auto|].
  case_decide; [by right|by left].
Qed.

Lemma publish_tags_bucket_elem e d l r s r' s' k x :
  publish_tags e d (r, s) l = Some (r', s') →
  x ∈ bucket (eventsByTag r') k →
  x ∈ bucket (eventsByTag r) k
  ∨ (x = e ∧ ∃ tag, tag ∈ l ∧ indexable tag ∧ k = tag_key tag).
Proof.
  revert r s. induction l as [|tag l IH]; intros r s; cbn [publish_tags].
  - intros; simplify_eq. by left.
  - destruct (publish_tag e d (r, s) tag) as [[r1 s1]|] eqn:Htag; [|done].
    intros Hl Hx. destruct (IH _ _ Hl Hx) as [Hx1|(-> & tag' & ? & ? & ?)].
    + apply publish_tag_bucket in Htag as [[Heq _]|[Heq Hidx]];
        rewrite Heq in Hx1; [by left|].
      apply updateIndex_elem in Hx1 as [[-> <-]|?]; [right|by left].
      split; [done|]. exists tag. split_and!; [left|done..].
    + right. split; [done|]. exists tag'. split_and!; [by right|done..].
Qed.

Lemma publish_tags_bucket_keeps e d l r s r' s' k x :
  publish_tags e d (r, s) l = Some (r', s') →
  x ∈ bucket (eventsByTag r) k → (∀ y, d = Some y → x ≠ y) →
  x ∈ bucket (eventsByTag r') k.
Proof.
  revert r s. induction l as [|tag l IH]; intros r s; cbn [publish_tags].
  - intros; by simplify_eq.
  - destruct (publish_tag e d (r, s) tag) as [[r1 s1]|] eqn:Htag; [|done].
    intros Hl Hx Hd. apply (IH _ _ Hl); [|done].
    apply publish_tag_bucket in Htag as [[-> _]|[-> _]]; [done|].
    by apply updateIndex_keeps.
Qed.

Lemma publish_tags_bucket_adds e d l r s r' s' tag :
  publish_tags e d (r, s) l = Some (r', s') →
  tag ∈ l → indexable tag → (∀ y, d = Some y → e ≠ y) →
  e ∈ bucket (eventsByTag r') (tag_key tag).
Proof.
  revert r s. induction l as [|tag' l IH]; intros r s; cbn [publish_tags].
  - by intros _ ?%elem_of_nil.
  - destruct (publish_tag e d (r, s) tag') as [[r1 s1]|] eqn:Htag; [|done].
    intros Hl [->|Hin]%elem_of_cons Hidx Hd; [|by eapply IH].
    eapply publish_tags_bucket_keeps; [done| |done].
    apply publish_tag_bucket in Htag as [[_ ?]|[-> _]]; [done|].
    apply updateIndex_adds.
Qed.

Lemma stored_eventsByWrap r e :
  eventsByWrap (stored r e) =
  match wrap e with
  | Some w => <[w := e]> (eventsByWrap r)
  | None => eventsByWrap r
  end.
Proof.
  unfold stored.
  by destruct (eventsByAddress r !! getAddress e), (isReplaceable e), (wrap e).
Qed.

(** What an accepting call is made of. *)
Lemma publish_accepted_inv e n r r' u :
  invariant r → publish e n r = Some (true, r', u) →
  JsMap.get (id e) (eventsById r) = None
  ∧ isDeleted r e = false
  ∧ (∀ d, eventsByAddress r !! getAddress e = Some d →
          created_at d < created_at e ∧ holds r d ∧ d ≠ e)
  ∧ (∀ x, holds r' x ↔ holds r x ∨ x = e)
  ∧ same_frame (stored r e) r'
  ∧ ∃ removed,
      publish_tags e (eventsByAddress r !! getAddress e)
        (stored r e, superseded r e) (tags e) = Some (r', removed)
      ∧ u = notification n e removed.
Proof.
  intros Hinv Hp.
  apply publish_inv in Hp as (_ & [(? & _)|(_ & Hrej & rem & Htags & ->)]); [done|].
  assert (JsMap.get (id e) (eventsById r) = None) as Hfresh.
  { destruct (JsMap.get _ _) eqn:?; [|done]. exfalso. apply Hrej. left. eauto. }
  pose proof (publish_tags_frame _ _ _ _ _ _ _ Htags) as Hframe.
  split_and!; [done| | | |done|by eauto].
  - destruct (isDeleted r e) eqn:?; [|done]. exfalso. apply Hrej. right. by left.
  - intros d Hd. split_and!.
    + destruct (decide (created_at e ≤ created_at d)); [|lia].
      exfalso. apply Hrej. right. right. eauto.
    + by eapply inv_address.
    + intros ->. assert (holds r e) as He by (by eapply inv_address).
      apply holds_get in He; [congruence|done].
  - intros x. unfold holds. destruct Hframe as (-> & _).
    rewrite stored_eventsById by done.
    rewrite elem_of_app, list_elem_of_singleton. naive_solver.
Qed.

(** A stored event whose id is tombstoned stays so. *)
Lemma deleted_by_id_stays e n r a r' u x :
  invariant r → publish e n r = Some (a, r', u) →
  holds r x → created_at x < tombstone r (id x) →
  created_at x < tombstone r' (id x).
Proof.
  intros Hinv Hp Hx Hdel. destruct a.
  - destruct (publish_accepted_inv _ _ _ _ _ Hinv Hp)
      as (_ & _ & Hdup & _ & _ & rem & Htags & _).
    pose proof (publish_tags_tombstone _ _ _ _ _ _ _ (id x) Htags) as Hmono.
    cut (created_at x < tombstone (stored r e) (id x)); [lia|].
    rewrite (tombstone_lookup (stored r e)), stored_deletes.
    rewrite tombstone_lookup in Hdel.
    destruct (eventsByAddress r !! getAddress e) as [d|] eqn:Hd; [|done].
    destruct (Hdup d eq_refl) as (Hlt & Hd' & _).
    destruct (decide (id d = id x)) as [Hid|Hne].
    + assert (d = x) as -> by (by eapply holds_same_id).
      rewrite lookup_insert_eq. simpl. lia.
    + by rewrite lookup_insert_ne.
  - by apply publish_inv in Hp as (_ & [(_ & -> & _)|(? & _)]).
Qed.

Lemma valueless_indexable tag : valueless tag → indexable tag.
Proof. by destruct tag as [|t0 [|? ?]]. Qed.

Lemma publish_tag_thrown_eventsByTag e d r tag :
  eventsByTag (publish_tag_thrown e d r tag)
  = _updateIndex (eventsByTag r) (tag_key tag) e d.
Proof. reflexivity. Qed.

(** The loop over the tags, run through or stopped by the exception at the
    tag after [pre]. *)
Lemma loop_takes e r pre r1 s1 r' :
  invariant r → ¬ rejects r e →
  publish_tags e (eventsByAddress r !! getAddress e)
    (stored r e, superseded r e) pre = Some (r1, s1) →
  (r' = r1 ∧ indexed_tags e = pre)
  ∨ (∃ tag, r' = publish_tag_thrown e (eventsByAddress r !! getAddress e)
                   r1 tag
            ∧ indexable tag ∧ indexed_tags e = pre ++ [tag]) →
  takes r e r'.
Proof.
  intros Hinv Hrej Htags Hcase.
  assert (JsMap.get (id e) (eventsById r) = None) as Hfresh.
  { destruct (JsMap.get _ _) eqn:?; [|done]. exfalso. apply Hrej. left. eauto. }
  assert (∀ y, eventsByAddress r !! getAddress e = Some y → e ≠ y) as Hne.
  { intros y Hy ->. assert (holds r y) as Hy' by (by eapply inv_address).
    apply holds_get in Hy'; [congruence|done]. }
  pose proof (publish_tags_frame _ _ _ _ _ _ _ Htags) as Hframe.
  assert (∀ k x, x ∈ bucket (eventsByTag r) k →
                 eventsByAddress r !! getAddress e ≠ Some x →
                 x ∈ bucket (eventsByTag r1) k) as Hkeeps.
  { intros k x Hx Hxd. eapply publish_tags_bucket_keeps; [done| |].
    - by rewrite stored_eventsByTag.
    - by intros y Hy ->. }
  split.
  - done.
  - destruct (isDeleted r e) eqn:?; [|done]. exfalso. apply Hrej. right. by left.
  - intros d Hd. destruct (decide (created_at e ≤ created_at d)); [|lia].
    exfalso. apply Hrej. right. right. eauto.
  - by destruct Hcase as [[-> _]|(tag & -> & _)].
  - intros k. pose proof (publish_tags_tombstone _ _ _ _ _ _ _ k Htags).
    by destruct Hcase as [[-> _]|(tag & -> & _)].
  - intros k x Hx.
    assert (x ∈ bucket (eventsByTag r1) k →
            x ∈ bucket (eventsByTag r) k
            ∨ (x = e ∧ ∃ tag, tag ∈ pre ∧ indexable tag ∧ k = tag_key tag))
      as Hpre.
    { intros Hx1.
      apply (publish_tags_bucket_elem _ _ _ _ _ _ _ _ _ Htags) in Hx1
        as [Hx1|?]; [left|by right].
      by rewrite stored_eventsByTag in Hx1. }
    destruct Hcase as [[-> ->]|(tag & -> & Hidx & ->)]; [by apply Hpre|].
    rewrite publish_tag_thrown_eventsByTag in Hx.
    apply updateIndex_elem in Hx as [[-> <-]|Hx].
    + right. split; [done|]. exists tag.
      split_and!; [|done..]. apply elem_of_app. right. left.
    + destruct (Hpre Hx) as [?|(-> & tag' & ? & ? & ?)]; [by left|right].
      split; [done|]. exists tag'. rewrite elem_of_app. auto.
  - intros k x Hx Hxd. pose proof (Hkeeps k x Hx Hxd) as Hx1.
    destruct Hcase as [[-> _]|(tag & -> & _)]; [done|].
    rewrite publish_tag_thrown_eventsByTag.
    apply updateIndex_keeps; [done|]. by intros y Hy ->.
  - intros tag Htag Hidx.
    destruct Hcase as [[-> Heq]|(tag' & -> & Hidx' & Heq)]; rewrite Heq in Htag.
    + by eapply publish_tags_bucket_adds.
    + rewrite publish_tag_thrown_eventsByTag.
      apply elem_of_app in Htag as [Htag| ->%list_elem_of_singleton].
      * apply updateIndex_keeps; [|done]. by eapply publish_tags_bucket_adds.
      * apply updateIndex_adds.
Qed.

Lemma publish_takes e n r r' u :
  invariant r → publish e n r = Some (true, r', u) → takes r e r'.
Proof.
  intros Hinv (_ & [(? & _)|(_ & Hrej & rem & Htags & _)])%publish_inv; [done|].
  eapply loop_takes; [done..|]. left. split; [done|].
  apply indexed_tags_all. intros Hk. by eapply publish_tags_no_valueless.
Qed.

Lemma thrown_takes e r r' :
  invariant r → isTrustedEvent e = true → thrown e r = Some r' → takes r e r'.
Proof.
  intros Hinv Ht
    [[? _]|(_ & Hrej & Hk & pre & tag & post & r1 & s1
            & Htags & Hpre & Hv & Hloop & ->)]%thrown_inv; [congruence|].
  eapply loop_takes; [done..|]. right. exists tag.
  split_and!; [done|by apply valueless_indexable|].
  unfold indexed_tags. rewrite decide_True by done.
  rewrite Htags. by apply upto_valueless_app.
Qed.

Lemma takes_holds r e r' x : takes r e r' → holds r' x ↔ holds r x ∨ x = e.
Proof.
  intros Ht. unfold holds. destruct (takes_frame _ _ _ Ht) as (-> & _).
  rewrite stored_eventsById by apply Ht.
  rewrite elem_of_app, list_elem_of_singleton. naive_solver.
Qed.

Lemma takes_superseded r e r' d :
  takes r e r' → eventsByAddress r !! getAddress e = Some d →
  created_at d < tombstone r' (id d).
Proof.
  intros Ht Hd. pose proof (takes_tombstone _ _ _ Ht (id d)) as Hmono.
  pose proof (takes_newer _ _ _ Ht d Hd).
  rewrite (tombstone_lookup (stored r e)), stored_deletes, Hd in Hmono.
  rewrite lookup_insert_eq in Hmono. simpl in Hmono. lia.
Qed.

Lemma takes_deleted_stays r e r' x :
  invariant r → takes r e r' →
  holds r x → created_at x < tombstone r (id x) →
  created_at x < tombstone r' (id x).
Proof.
  intros Hinv Ht Hx Hdel.
  pose proof (takes_tombstone _ _ _ Ht (id x)) as Hmono.
  cut (created_at x < tombstone (stored r e) (id x)); [lia|].
  rewrite (tombstone_lookup (stored r e)), stored_deletes.
  rewrite tombstone_lookup in Hdel.
  destruct (eventsByAddress r !! getAddress e) as [d|] eqn:Hd; [|done].
  pose proof (takes_newer _ _ _ Ht d Hd) as Hlt.
  destruct (decide (id d = id x)) as [Hid|Hne].
  - assert (d = x) as ->.
    { eapply holds_same_id; [done| |done..]. by eapply inv_address. }
    rewrite lookup_insert_eq. simpl. lia.
  - by rewrite lookup_insert_ne.
Qed.
End index_facts.

Section index_preservation.
Context `{Externals}.
Implicit Types (r : Repository) (e x : Event).

Lemma superseded_tombstoned e n r r' u d :
  invariant r → publish e n r = Some (true, r', u) →
  eventsByAddress r !! getAddress e = Some d →
  created_at d < tombstone r' (id d).
Proof.
  intros Hinv Hp Hd.
  destruct (publish_supersedes _ _ _ _ _ _ Hinv Hd Hp) as (Hlt & _ & Hts & _).
  rewrite tombstone_lookup, Hts. simpl. lia.
Qed.

Lemma filed_new : filed empty_repository.
Proof.
  split; unfold bucket; simpl.
  - intros k e. rewrite lookup_empty. by intros ?%elem_of_nil.
  - intros k e. rewrite lookup_empty. by intros ?%elem_of_nil.
  - intros k e. rewrite lookup_empty. by intros ?%elem_of_nil.
  - intros w e. by rewrite lookup_empty.
  - intros a d. by rewrite lookup_empty.
Qed.

Lemma filed_takes e r r' :
  filed r → takes r e r' → filed r'.
Proof.
  intros Hf Ht.
  destruct (takes_frame _ _ _ Ht) as (_ & Hwrap & Haddr & Hday & Hauthor).
  pose proof (λ x, takes_holds r e r' x Ht) as Hholds.
  split.
  - intros k x. rewrite Hday, stored_eventsByDay.
    intros [[-> <-]|Hx]%updateIndex_elem; [done|]. by eapply filed_day.
  - intros k x. rewrite Hauthor, stored_eventsByAuthor, Hholds.
    intros [[-> <-]|Hx]%updateIndex_elem; [by auto|].
    destruct (filed_author r Hf _ _ Hx). auto.
  - intros k x Hx. rewrite Hholds.
    apply (takes_tag_elem _ _ _ Ht) in Hx as [Hx|(-> & tag & ? & ? & ?)].
    + destruct (filed_tag r Hf _ _ Hx). auto.
    + split; [by right|]. by exists tag.
  - intros w x. rewrite Hwrap, stored_eventsByWrap, Hholds.
    destruct (wrap e) as [w'|] eqn:Hw.
    + destruct (decide (w' = w)) as [->|Hne].
      * rewrite lookup_insert_eq. intros [= <-]. auto.
      * rewrite lookup_insert_ne by done. intros Hx.
        destruct (filed_wrap r Hf _ _ Hx). auto.
    + intros Hx. destruct (filed_wrap r Hf _ _ Hx). auto.
  - intros a d. rewrite Haddr, stored_eventsByAddress.
    destruct (isReplaceable e) eqn:Hrepl; [|by apply Hf].
    destruct (decide (getAddress e = a)) as [<-|Hne].
    + rewrite lookup_insert_eq. by intros [= <-].
    + rewrite lookup_insert_ne by done. apply Hf.
Qed.

Lemma covered_new : covered empty_repository.
Proof.
  split; unfold holds; simpl.
  - by intros x ?%elem_of_nil.
  - by intros x tag ?%elem_of_nil.
  - by intros x ?%elem_of_nil.
Qed.

Lemma covered_takes e r r' :
  invariant r → covered r → takes r e r' → covered r'.
Proof.
  intros Hinv Hc Ht.
  destruct (takes_frame _ _ _ Ht) as (_ & _ & Haddr & _ & Hauthor).
  pose proof (λ x, takes_holds r e r' x Ht) as Hholds.
  assert (∀ x, holds r x →
            created_at x < tombstone r' (id x)
            ∨ eventsByAddress r !! getAddress e ≠ Some x) as Hsplit.
  { intros x Hx.
    destruct (eventsByAddress r !! getAddress e) as [d|] eqn:Hd; [|by right].
    destruct (decide (x = d)) as [->|?]; [left|right; congruence].
    by eapply takes_superseded. }
  assert (eventsByAddress r !! getAddress e ≠ Some e) as Hne.
  { intros Hy. assert (holds r e) as He by (by eapply inv_address).
    apply holds_get in He; [|done]. by rewrite (takes_fresh _ _ _ Ht) in He. }
  split.
  - intros x [Hx| ->]%Hholds.
    + destruct (covered_author r Hc x Hx) as [Hin|Hdel].
      * destruct (Hsplit x Hx) as [?|Hxd]; [by right|left].
        rewrite Hauthor, stored_eventsByAuthor.
        apply updateIndex_keeps; [done|]. by intros y Hy ->.
      * right. by eapply takes_deleted_stays.
    + left. rewrite Hauthor, stored_eventsByAuthor. apply updateIndex_adds.
  - intros x tag [Hx| ->]%Hholds Htag Hidx.
    + destruct (covered_tag r Hc x tag Hx Htag Hidx) as [Hin|Hdel].
      * destruct (Hsplit x Hx) as [?|Hxd]; [by right|left].
        by eapply takes_tag_keeps.
      * right. by eapply takes_deleted_stays.
    + left. by eapply takes_tag_adds.
  - intros x Hx Hrepl. rewrite Haddr, stored_eventsByAddress.
    apply Hholds in Hx as [Hx| ->].
    + destruct (covered_address r Hc x Hx Hrepl) as (d & Hd & Hle).
      destruct (isReplaceable e); [|by eauto].
      destruct (decide (getAddress e = getAddress x)) as [Heq|Hneq].
      * rewrite Heq, lookup_insert_eq. exists e. split; [done|right].
        rewrite <- Heq in Hd. pose proof (takes_newer _ _ _ Ht d Hd) as Hlt.
        destruct Hle as [->|?]; lia.
      * rewrite lookup_insert_ne by done. eauto.
    + rewrite Hrepl, lookup_insert_eq. eauto.
Qed.

Lemma nonneg_new : nonneg empty_repository.
Proof.
  split.
  - intros k. rewrite tombstone_lookup. simpl. by rewrite lookup_empty.
  - intros x. unfold holds. simpl. by intros ?%elem_of_nil.
Qed.

Lemma nonneg_takes e r r' :
  nonneg r → takes r e r' → nonneg r'.
Proof.
  intros Hn Ht.
  pose proof (λ x, takes_holds r e r' x Ht) as Hholds.
  assert (0 ≤ created_at e) as He.
  { pose proof (takes_live _ _ _ Ht) as Hdel.
    apply isDeleted_false in Hdel as [_ Hdel].
    pose proof (nonneg_tombstone r Hn (id e)). lia. }
  split.
  - intros k. pose proof (takes_tombstone _ _ _ Ht k) as Hmono.
    cut (0 ≤ tombstone (stored r e) k); [lia|].
    pose proof (nonneg_tombstone r Hn k) as Hk.
    rewrite tombstone_lookup in *. rewrite stored_deletes.
    destruct (eventsByAddress r !! getAddress e) as [d|]; [|done].
    destruct (decide (id d = k)) as [->|?].
    + by rewrite lookup_insert_eq.
    + by rewrite lookup_insert_ne.
  - intros x [Hx| ->]%Hholds; [by apply Hn|done].
Qed.

(** The three hold on every reachable repository, after returning and
    after throwing calls. *)
Lemma reachable_indices r : reachable r → filed r ∧ covered r ∧ nonneg r.
Proof.
  induction 1 as [|r e n a r' u Hr (Hf & Hc & Hn) Hp
                  |r e r' Hr (Hf & Hc & Hn) Ht].
  - split_and!; [apply filed_new | apply covered_new | apply nonneg_new].
  - pose proof (reachable_invariant _ Hr) as Hinv. destruct a.
    + assert (takes r e r') as Ht by (by eapply publish_takes).
      split_and!; [by eapply filed_takes | by eapply covered_takes
                   | by eapply nonneg_takes].
    + by apply publish_inv in Hp as (_ & [(_ & -> & _)|(? & _)]).
  - pose proof (reachable_invariant _ Hr) as Hinv.
    destruct (isTrustedEvent e) eqn:Htr.
    + assert (takes r e r') as Ht' by (by eapply thrown_takes).
      split_and!; [by eapply filed_takes | by eapply covered_takes
                   | by eapply nonneg_takes].
    + apply thrown_inv in Ht as [[_ ->]|(? & _)]; [done|congruence].
Qed.
End index_preservation.

(** ** [hasEvent] *)

Section hasEvent_properties.
Context `{Externals}.
Implicit Types (r : Repository) (e : Event).

(** What [hasEvent] looks up, in terms of the stored events: the event with
    [e]'s id; failing that the newest stored replaceable event of [e]'s
    address; failing that nothing. *)
Lemma hasEvent_lookup r e :
  reachable r →
  (∃ s, holds r s ∧ id s = id e
        ∧ hasEvent r e = Some (created_at e <=? created_at s))
  ∨ ((∀ s, holds r s → id s ≠ id e)
     ∧ ((∃ d, holds r d ∧ isReplaceable d = true
              ∧ getAddress d = getAddress e
              ∧ (∀ x, holds r x → isReplaceable x = true →
                      getAddress x = getAddress e →
                      created_at x ≤ created_at d)
              ∧ hasEvent r e = Some (created_at e <=? created_at d))
        ∨ ((∀ x, holds r x → isReplaceable x = true →
                 getAddress x ≠ getAddress e)
           ∧ hasEvent r e = None))).
Proof.
  intros Hr. pose proof (reachable_invariant _ Hr) as Hinv.
  destruct (reachable_indices _ Hr) as (Hf & Hc & _).
  unfold hasEvent.
  destruct (JsMap.get (id e) (eventsById r)) as [s|] eqn:Hs.
  { apply get_holds in Hs as [Hs Hid]; [|done]. left. by exists s. }
  right. split.
  { intros s Hs' Hid. apply holds_get in Hs'; [|done]. congruence. }
  destruct (eventsByAddress r !! getAddress e) as [d|] eqn:Hd.
  - left. destruct (filed_address r Hf _ _ Hd) as [Ha Hrepl].
    exists d. split_and!; [by eapply inv_address|done..| |done].
    intros x Hx Hxr Hxa.
    destruct (covered_address r Hc x Hx Hxr) as (d' & Hd' & Hcmp).
    rewrite Hxa, Hd in Hd'. injection Hd' as <-.
    destruct Hcmp as [->|?]; lia.
  - right. split; [|done]. intros x Hx Hxr Hxa.
    destruct (covered_address r Hc x Hx Hxr) as (d' & Hd' & _).
    by rewrite Hxa, Hd in Hd'.
Qed.

(** Claim C10, amended.  On a reachable repository [hasEvent e] is [true]
    exactly when the stored event with [e]'s id has [created_at ≥ e]'s or,
    no stored event having [e]'s id, a stored replaceable event of [e]'s
    address has [created_at ≥ e]'s.  Otherwise the result is falsy:
    [undefined] exactly when no stored event has [e]'s id and no stored
    replaceable event has [e]'s address; [false] exactly when the stored
    event with [e]'s id is older than [e] or, no stored event having
    [e]'s id, there are stored replaceable events of [e]'s address and all
    are older than [e]. *)
Theorem hasEvent_true_iff r e :
  reachable r →
  (hasEvent r e = Some true ↔
   (∃ s, holds r s ∧ id s = id e ∧ created_at e ≤ created_at s)
   ∨ ((∀ s, holds r s → id s ≠ id e)
      ∧ ∃ d, holds r d ∧ isReplaceable d = true
             ∧ getAddress d = getAddress e
             ∧ created_at e ≤ created_at d))
  ∧ (hasEvent r e = None ↔
     (∀ s, holds r s → id s ≠ id e)
     ∧ (∀ d, holds r d → isReplaceable d = true →
             getAddress d ≠ getAddress e))
  ∧ (hasEvent r e = Some false ↔
     (∃ s, holds r s ∧ id s = id e ∧ created_at s < created_at e)
     ∨ ((∀ s, holds r s → id s ≠ id e)
        ∧ (∃ d, holds r d ∧ isReplaceable d = true
                ∧ getAddress d = getAddress e)
        ∧ ∀ d, holds r d → isReplaceable d = true →
               getAddress d = getAddress e →
               created_at d < created_at e)).
Proof.
  intros Hr. pose proof (reachable_invariant _ Hr) as Hinv.
  destruct (hasEvent_lookup r e Hr)
    as [(s & Hs & Hid & ->)
       |(Hno & [(d & Hd & Hrepl & Ha & Hmax & ->)|(Hnone & ->)])].
  - assert (∀ s', holds r s' → id s' = id e → s' = s) as Hsame.
    { intros s' Hs' Hid'. eapply holds_same_id; [done..|congruence]. }
    split_and!.
    + split.
      * intros [= Hle%Z.leb_le]. left. by exists s.
      * intros [(s' & Hs' & Hid' & Hle)|[Hno _]]; [|by destruct (Hno s Hs)].
        rewrite (Hsame s' Hs' Hid') in Hle. f_equal. by apply Z.leb_le.
    + split; [done|]. intros [Hno _]. by destruct (Hno s Hs).
    + split.
      * intros [= Hlt%Z.leb_gt]. left. by exists s.
      * intros [(s' & Hs' & Hid' & Hlt)|[Hno _]]; [|by destruct (Hno s Hs)].
        rewrite (Hsame s' Hs' Hid') in Hlt. f_equal. by apply Z.leb_gt.
  - split_and!.
    + split.
      * intros [= Hle%Z.leb_le]. right. split; [done|]. by exists d.
      * intros [(s & Hs & Hid & _)|(_ & x & Hx & Hxr & Hxa & Hle)];
          [by destruct (Hno s Hs)|].
        f_equal. apply Z.leb_le. pose proof (Hmax x Hx Hxr Hxa). lia.
    + split; [done|]. intros [_ Hnone]. by destruct (Hnone d Hd Hrepl).
    + split.
      * intros [= Hlt%Z.leb_gt]. right. split_and!; [done|by exists d|].
        intros x Hx Hxr Hxa. pose proof (Hmax x Hx Hxr Hxa). lia.
      * intros [(s & Hs & Hid & _)|(_ & _ & Hall)]; [by destruct (Hno s Hs)|].
        f_equal. apply Z.leb_gt. by apply Hall.
  - split_and!.
    + split; [done|].
      intros [(s & Hs & Hid & _)|(_ & x & Hx & Hxr & Hxa & _)];
        [by destruct (Hno s Hs)|by destruct (Hnone x Hx Hxr)].
    + done.
    + split; [done|].
      intros [(s & Hs & Hid & _)|(_ & (x & Hx & Hxr & Hxa) & _)];
        [by destruct (Hno s Hs)|by destruct (Hnone x Hx Hxr)].
Qed.
End hasEvent_properties.

(** The claim as the specification words it - [true] exactly when an event
    with [e]'s id is stored, or an event of [e]'s address with
    [created_at ≥ e]'s is - fails twice.  An event with the id of the stored
    [evA] and a later [created_at]: the code compares [created_at] on an id
    match as well and answers [false].  A note of kind 1 with the address of
    a stored, newer note: the address index holds replaceable events only,
    and the code answers [undefined]. *)
Lemma hasEvent_not_as_claimed :
  (holds (run [Sample.evA]) Sample.evA
   ∧ id Sample.evA = id Sample2.evA500
   ∧ hasEvent (run [Sample.evA]) Sample2.evA500 = Some false)
  ∧ (holds (run [Sample.note2]) Sample.note2
     ∧ getAddress Sample.note2 = getAddress Sample.note1
     ∧ created_at Sample.note1 ≤ created_at Sample.note2
     ∧ hasEvent (run [Sample.note2]) Sample.note1 = None)
  ∧ ¬ (∀ r e, reachable r →
         hasEvent r e = Some true ↔
         (∃ s, holds r s ∧ id s = id e)
         ∨ (∃ d, holds r d ∧ getAddress d = getAddress e
                 ∧ created_at e ≤ created_at d)).
Proof.
  assert (holds (run [Sample.evA]) Sample.evA) as HA by (vm_compute; left).
  split_and!.
  - exact HA.
  - reflexivity.
  - vm_compute. reflexivity.
  - vm_compute. left.
  - vm_compute. reflexivity.
  - vm_compute. discriminate.
  - vm_compute. reflexivity.
  - intros Hclaim.
    destruct (Hclaim (run [Sample.evA]) Sample2.evA500 (run_reachable _))
      as [_ Hfalse].
    assert (hasEvent (run [Sample.evA]) Sample2.evA500 = Some true) as Htrue.
    { apply Hfalse. left. by exists Sample.evA. }
    vm_compute in Htrue. discriminate Htrue.
Qed.

(** After the [publish] call of [evCrash2] has thrown at its first tag, the
    event is stored and not deleted, and [query] does not find it by its
    second tag. *)
Lemma sample_thrown_not_found :
  publish Sample2.evCrash2 true (run [Sample.evA]) = None
  ∧ dump (run [Sample.evA; Sample2.evCrash2]) = [Sample.evA; Sample2.evCrash2]
  ∧ isDeleted (run [Sample.evA; Sample2.evCrash2]) Sample2.evCrash2 = false
  ∧ carries "p" ["x"] Sample2.evCrash2 = true
  ∧ indexed_tags Sample2.evCrash2 = [["e"]]
  ∧ query 0 [tag_filter "p" ["x"]] false (run [Sample.evA; Sample2.evCrash2])
    = []
  ∧ query 0 [tag_filter "d" ["x"]] false (run [Sample.evA; Sample2.evCrash2])
    = [Sample.evA].
Proof. split_and!; vm_compute; reflexivity. Qed.

Lemma hasEvent_true_iff_witness :
  hasEvent (run [Sample.evA]) Sample.evB = Some true.
Proof.
  refine (proj2 (proj1 (hasEvent_true_iff (run [Sample.evA]) Sample.evB _)) _).
  - apply run_reachable.
  - right. split.
    + intros s Hs Hid. vm_compute in Hs.
      apply list_elem_of_singleton in Hs. injection Hs as _ ->.
      vm_compute in Hid. discriminate Hid.
    + exists Sample.evA. split_and!.
      * vm_compute. left.
      * reflexivity.
      * reflexivity.
      * simpl. lia.
Defined.

(** ** Further properties of [publish] *)

Section publish_properties.
Context `{Externals}.
Implicit Types (r : Repository) (e x : Event).

Lemma publish_tag_throws e d st tag :
  publish_tag e d st tag = None ↔ kind e = DELETE ∧ valueless tag.
Proof.
  destruct st as [r s]. unfold publish_tag, valueless.
  destruct tag as [|t0 [|v rest]]; simpl.
  - naive_solver.
  - repeat case_decide; naive_solver.
  - repeat case_decide; repeat case_match; naive_solver.
Qed.

Lemma publish_tags_throws e d l st :
  publish_tags e d st l = None ↔
  kind e = DELETE ∧ ∃ tag, tag ∈ l ∧ valueless tag.
Proof.
  revert st. induction l as [|tag l IH]; intros st; cbn [publish_tags].
  - split; [done|]. by intros (_ & tag & ?%elem_of_nil & _).
  - destruct (publish_tag e d st tag) as [st'|] eqn:Htag.
    + rewrite IH. split.
      * intros (? & tag' & ? & ?). split; [done|]. exists tag'. split; [by right|done].
      * intros (Hk & tag' & [->|?]%elem_of_cons & Hv); [|by eauto].
        assert (publish_tag e d st tag = None) as Hn
          by (by apply publish_tag_throws).
        congruence.
    + apply publish_tag_throws in Htag as [? ?]. split; [intros _|done].
      split; [done|]. exists tag. split; [left|done].
Qed.

Lemma publish_tag_keeps_keys e d r s tag r' s' k :
  publish_tag e d (r, s) tag = Some (r', s') →
  is_Some (deletes r !! k) → is_Some (deletes r' !! k).
Proof.
  intros [->|(target & _ & _ & ->)]%publish_tag_deletes; [done|].
  intros Hk. destruct (decide (target = k)) as [->|?].
  - rewrite lookup_insert_eq. eauto.
  - by rewrite lookup_insert_ne.
Qed.

Lemma publish_tags_keeps_keys e d l r s r' s' k :
  publish_tags e d (r, s) l = Some (r', s') →
  is_Some (deletes r !! k) → is_Some (deletes r' !! k).
Proof.
  revert r s. induction l as [|tag l IH]; intros r s; cbn [publish_tags].
  - intros; by simplify_eq.
  - destruct (publish_tag e d (r, s) tag) as [[r1 s1]|] eqn:Htag; [|done].
    intros Hl Hk. apply (IH _ _ Hl). by eapply publish_tag_keeps_keys.
Qed.

Lemma publish_eventsById_app e n r a r' u :
  publish e n r = Some (a, r', u) →
  eventsById r' = eventsById r ++ (if a then [(id e, e)] else []).
Proof.
  intros Hp. destruct a; [by eapply publish_accepted_eventsById|].
  apply publish_inv in Hp as (_ & [(_ & -> & _)|(? & _)]); [|done].
  by rewrite app_nil_r.
Qed.

(** Property X1.  A [publish] call that returns never evicts or reorders
    what [eventsById] holds: a rejected event leaves it as it was, an
    accepted event goes last, so that [dump] lists the events in the order
    of their acceptance. *)
Theorem publish_only_appends e n r a r' u :
  publish e n r = Some (a, r', u) →
  eventsById r' = eventsById r ++ (if a then [(id e, e)] else [])
  ∧ dump r' = dump r ++ (if a then [e] else []).
Proof.
  intros Hp. pose proof (publish_eventsById_app _ _ _ _ _ _ Hp) as Heq.
  split; [done|]. unfold dump, JsMap.values. rewrite Heq, fmap_app.
  by destruct a.
Qed.

(** Property X2.  A [publish] call that returns removes no entry of
    [deletes], and lowers the timestamp of no key other than the id of the
    incumbent it supersedes. *)
Theorem tombstones_persist e n r a r' u :
  publish e n r = Some (a, r', u) →
  (∀ k, is_Some (deletes r !! k) → is_Some (deletes r' !! k))
  ∧ (∀ k, (∀ d, eventsByAddress r !! getAddress e = Some d → k ≠ id d) →
          tombstone r k ≤ tombstone r' k).
Proof.
  intros (_ & [(_ & -> & _)|(_ & _ & rem & Htags & _)])%publish_inv; [done|].
  split.
  - intros k Hk. eapply publish_tags_keeps_keys; [done|].
    rewrite stored_deletes.
    destruct (eventsByAddress r !! getAddress e) as [d|]; [|done].
    destruct (decide (id d = k)) as [->|?].
    + rewrite lookup_insert_eq. eauto.
    + by rewrite lookup_insert_ne.
  - intros k Hk.
    pose proof (publish_tags_tombstone _ _ _ _ _ _ _ k Htags) as Hmono.
    cut (tombstone r k = tombstone (stored r e) k); [lia|].
    rewrite !tombstone_lookup, stored_deletes.
    destruct (eventsByAddress r !! getAddress e) as [d|]; [|done].
    rewrite lookup_insert_ne; [done|]. intros Heq. by eapply Hk.
Qed.

(** Property X3.  On a repository reached by [publish] calls, a stored
    event that [isDeletedById] reports as deleted is still reported so
    after any further [publish] call: a superseded or deleted event does
    not come back. *)
Theorem deleted_by_id_is_final e n r a r' u x :
  reachable r → publish e n r = Some (a, r', u) →
  holds r x → isDeletedById r x = true →
  holds r' x ∧ isDeletedById r' x = true.
Proof.
  intros Hinv%reachable_invariant Hp Hx Hdel. split.
  - unfold holds. rewrite (publish_eventsById_app _ _ _ _ _ _ Hp).
    apply elem_of_app. by left.
  - unfold isDeletedById in *. apply Z.ltb_lt. apply Z.ltb_lt in Hdel.
    by eapply deleted_by_id_stays.
Qed.

(** Property X4.  The default [|| 0] of a missing tombstone makes every
    event with a negative [created_at] count as deleted: on a repository
    reached by [publish] calls all stored events and all tombstones are
    non-negative, and a trusted event with [created_at < 0] is rejected
    without a change. *)
Theorem negative_created_at_rejected e n r :
  reachable r → isTrustedEvent e = true → created_at e < 0 →
  publish e n r = Some (false, r, [])
  ∧ (∀ x, holds r x → 0 ≤ created_at x)
  ∧ (∀ k, 0 ≤ tombstone r k).
Proof.
  intros (_ & _ & Hn)%reachable_indices Ht Hneg. split_and!.
  - apply publish_rejects; [done|]. right. left. apply isDeleted_true.
    pose proof (nonneg_tombstone r Hn (id e)). lia.
  - apply Hn.
  - apply Hn.
Qed.

(** Property X5.  The three outcomes of [publish].  It throws exactly when
    the event is not trusted, or when an event of kind [DELETE] that is not
    rejected carries a one-letter tag without a value (the [TypeError] of
    [getEvent(undefined)]); it returns [false] exactly when the event is
    trusted and one of the three rejections applies; it returns [true] in
    every other case. *)
Theorem publish_outcome e n r :
  let crash := kind e = DELETE ∧ ∃ tag, tag ∈ tags e ∧ valueless tag in
  (publish e n r = None ↔
   isTrustedEvent e = false ∨ (¬ rejects r e ∧ crash))
  ∧ ((∃ r' u, publish e n r = Some (false, r', u)) ↔
     isTrustedEvent e = true ∧ rejects r e)
  ∧ ((∃ r' u, publish e n r = Some (true, r', u)) ↔
     isTrustedEvent e = true ∧ ¬ rejects r e ∧ ¬ crash).
Proof.
  intros crash. unfold crash.
  pose proof (publish_tags_throws e (eventsByAddress r !! getAddress e)
                (tags e) (stored r e, superseded r e)) as Hthrow.
  rewrite publish_eq. destruct (isTrustedEvent e); simpl; [|naive_solver].
  pose proof (rejects_test r e) as Hrej.
  destruct ((bool_decide _ || _) || _) eqn:Htest.
  - assert (rejects r e) as Hr by (by apply Hrej).
    apply orb_true_iff in Htest as [->|Htest]; simpl.
    + split_and!; [naive_solver|naive_solver|].
      split; [by intros (? & ? & [=])|tauto].
    + destruct (bool_decide _ || isDeleted r e); simpl;
        [|rewrite Htest];
        (split_and!; [naive_solver|naive_solver|];
         split; [by intros (? & ? & [=])|tauto]).
  - assert (¬ rejects r e) as Hr by (rewrite Hrej; congruence).
    apply orb_false_iff in Htest as [-> ->]. simpl.
    destruct (publish_tags _ _ _ _) as [[r1 rem]|] eqn:Htags.
    + assert (¬ (kind e = DELETE ∧ ∃ tag, tag ∈ tags e ∧ valueless tag))
        as Hok by (rewrite <- Hthrow; congruence).
      split_and!; [naive_solver|naive_solver|]. split; [tauto|eauto].
    + assert (kind e = DELETE ∧ ∃ tag, tag ∈ tags e ∧ valueless tag)
        as Hbad by (by apply Hthrow).
      split_and!; [naive_solver|naive_solver|].
      split; [by intros (? & ? & [=])|tauto].
Qed.

(** Property X6.  What is published can be looked up.  After an accepting
    call the event is stored under its id; [getEvent] finds it by an id
    without a colon, and - for a replaceable event - by an address with a
    colon; [hasEvent] is [true] for it; its wrapper id leads to it. *)
Theorem publish_then_lookup e n r r' u :
  publish e n r = Some (true, r', u) →
  JsMap.get (id e) (eventsById r') = Some e
  ∧ (includes ":" (id e) = false → getEvent r' (id e) = Some e)
  ∧ (isReplaceable e = true → includes ":" (getAddress e) = true →
     getEvent r' (getAddress e) = Some e)
  ∧ hasEvent r' e = Some true
  ∧ (∀ w, wrap e = Some w → eventsByWrap r' !! w = Some e).
Proof.
  intros Hp.
  assert (JsMap.get (id e) (eventsById r') = Some e) as Hget.
  { rewrite (publish_accepted_eventsById _ _ _ _ _ Hp), jsmap_get_app.
    apply publish_inv in Hp as (_ & [(? & _)|(_ & Hrej & _)]); [done|].
    destruct (JsMap.get (id e) (eventsById r)) eqn:Hold.
    - exfalso. apply Hrej. left. eauto.
    - simpl. by rewrite decide_True. }
  apply publish_inv in Hp as (_ & [(? & _)|(_ & _ & rem & Htags & _)]); [done|].
  pose proof (publish_tags_frame _ _ _ _ _ _ _ Htags)
    as (_ & Hwrap & Haddr & _).
  split_and!.
  - done.
  - intros Hcolon. unfold getEvent. by rewrite Hcolon.
  - intros Hrepl Hcolon. unfold getEvent.
    rewrite Hcolon, Haddr, stored_eventsByAddress, Hrepl.
    apply lookup_insert_eq.
  - unfold hasEvent. rewrite Hget. by rewrite Z.leb_refl.
  - intros w Hw. rewrite Hwrap, stored_eventsByWrap, Hw.
    apply lookup_insert_eq.
Qed.

(** Property X7.  Callers use [hasEvent] to skip a redundant [publish]:
    whenever [hasEvent] is [true] for a trusted event, [publish] rejects it
    and changes nothing. *)
Theorem hasEvent_true_rejected e n r :
  isTrustedEvent e = true → hasEvent r e = Some true →
  publish e n r = Some (false, r, []).
Proof.
  intros Ht Hhas. apply publish_rejects; [done|]. unfold hasEvent in Hhas.
  destruct (JsMap.get (id e) (eventsById r)) as [s|] eqn:Hs; [left; eauto|].
  destruct (eventsByAddress r !! getAddress e) as [d|] eqn:Hd; [|done].
  right. right. exists d. split; [done|].
  injection Hhas as Hle. by apply Z.leb_le.
Qed.
End publish_properties.

(** ** Further properties of the indices *)

Section index_properties.
Context `{Externals}.
Implicit Types (r : Repository) (e x : Event).

(** Property X8.  On a repository reached by [publish] calls,
    [eventsByAddress] maps an address to a stored replaceable event of that
    address, and every other stored replaceable event of the address is
    strictly older: the address holds the newest version. *)
Theorem address_holds_newest r a d :
  reachable r → eventsByAddress r !! a = Some d →
  holds r d ∧ getAddress d = a ∧ isReplaceable d = true
  ∧ ∀ x, holds r x → isReplaceable x = true → getAddress x = a →
         x = d ∨ created_at x < created_at d.
Proof.
  intros Hr Hd. pose proof (reachable_invariant _ Hr) as Hinv.
  destruct (reachable_indices _ Hr) as (Hf & Hc & _).
  destruct (filed_address r Hf _ _ Hd) as [Ha Hrepl].
  split_and!; [by eapply inv_address|done..|].
  intros x Hx Hxr Hxa.
  destruct (covered_address r Hc x Hx Hxr) as (d' & Hd' & Hle).
  rewrite Hxa, Hd in Hd'. by simplify_eq.
Qed.

(** Property X9.  On a repository reached by [publish] calls every entry
    of a secondary index is a stored event filed under its own key: a day
    bucket holds events of that day, an author bucket events of that
    author, a tag bucket events that carry a one-letter tag with that key,
    and a wrapper id leads to an event with that wrapper. *)
Theorem index_entries_filed r :
  reachable r →
  (∀ k e, e ∈ bucket (eventsByDay r) k →
          holds r e ∧ k = getDay (created_at e))
  ∧ (∀ k e, e ∈ bucket (eventsByAuthor r) k → holds r e ∧ k = pubkey e)
  ∧ (∀ k e, e ∈ bucket (eventsByTag r) k →
            holds r e
            ∧ ∃ tag, tag ∈ tags e ∧ indexable tag ∧ k = tag_key tag)
  ∧ (∀ w e, eventsByWrap r !! w = Some e → holds r e ∧ wrap e = Some w).
Proof.
  intros Hr. pose proof (reachable_invariant _ Hr) as Hinv.
  destruct (reachable_indices _ Hr) as (Hf & _ & _).
  split_and!; [|apply Hf| |apply Hf].
  - intros k e He. split; [|by eapply filed_day].
    unfold bucket in He.
    destruct (eventsByDay r !! k) as [l|] eqn:Hk; simpl in He;
      [by eapply inv_day_stored | by apply elem_of_nil in He].
  - intros k e He.
    destruct (filed_tag r Hf k e He) as (? & tag & ? & ? & ?).
    split; [done|]. exists tag. split_and!; [|done..].
    by apply indexed_tags_elem.
Qed.

(** Property X10.  On every reachable repository - the [publish] calls
    before may have returned or thrown - a stored event that is not deleted
    is in the bucket of its day, in the bucket of its author and in the
    bucket of each one-letter tag the loop of [publish] got to
    ([indexed_tags]): all its one-letter tags, unless it is a deletion event
    with a valueless tag, whose [publish] call threw at that tag. *)
Theorem live_event_indexed r e :
  reachable r → holds r e → isDeleted r e = false →
  e ∈ bucket (eventsByDay r) (getDay (created_at e))
  ∧ e ∈ bucket (eventsByAuthor r) (pubkey e)
  ∧ (∀ tag, tag ∈ indexed_tags e → indexable tag →
            e ∈ bucket (eventsByTag r) (tag_key tag))
  ∧ ((kind e = DELETE → Forall (λ tag, ¬ valueless tag) (tags e)) →
     ∀ tag, tag ∈ tags e → indexable tag →
            e ∈ bucket (eventsByTag r) (tag_key tag)).
Proof.
  intros Hr He Hdel. pose proof (reachable_invariant _ Hr) as Hinv.
  destruct (reachable_indices _ Hr) as (_ & Hc & _).
  apply isDeleted_false in Hdel as [_ Hdel].
  assert (∀ tag, tag ∈ indexed_tags e → indexable tag →
                 e ∈ bucket (eventsByTag r) (tag_key tag)) as Htags.
  { intros tag Htag Hidx.
    destruct (covered_tag r Hc e tag He Htag Hidx); [done|lia]. }
  split_and!.
  - destruct (inv_day_covers r Hinv e He); [done|lia].
  - destruct (covered_author r Hc e He); [done|lia].
  - done.
  - intros Hall tag Htag. apply Htags. by rewrite indexed_tags_all.
Qed.

(** Property X11.  On a repository reached by [publish] calls, what
    [getEvent] finds is a stored event: under a key with a colon the
    replaceable event of that address, under any other key the event of
    that id. *)
Theorem getEvent_found r k x :
  reachable r → getEvent r k = Some x →
  holds r x
  ∧ (if includes ":" k
     then getAddress x = k ∧ isReplaceable x = true
     else id x = k).
Proof.
  intros Hr. pose proof (reachable_invariant _ Hr) as Hinv.
  destruct (reachable_indices _ Hr) as (Hf & _ & _).
  unfold getEvent. destruct (includes ":" k).
  - intros Hx. split; [by eapply inv_address|by apply Hf].
  - intros [Hx ->]%get_holds; done.
Qed.
End index_properties.

(** ** Further properties of [query] *)

Section query_properties.
Context `{Externals}.
Implicit Types (r : Repository) (e x : Event) (f : Filter).

Lemma elem_of_walk incl r f chunk events e :
  e ∈ walk incl r f chunk events →
  e ∈ chunk ∨ (e ∈ events ∧ kept incl r f e = true).
Proof.
  revert chunk. induction events as [|x events IH]; intros chunk; cbn [walk].
  - by left.
  - destruct (limit_reached f chunk); [by left|].
    unfold kept.
    destruct (negb incl && isDeleted r x) eqn:Hdel.
    { intros [?|[? ?]]%IH; [by left|right]. split; [by right|done]. }
    assert (incl || negb (isDeleted r x) = true) as Hlive
      by (by destruct incl, (isDeleted r x)).
    destruct (matchFilter f x) eqn:Hmatch.
    + intros [[?| ->%list_elem_of_singleton]%elem_of_app|[? ?]]%IH.
      * by left.
      * right. split; [left|]. by rewrite Hlive, Hmatch.
      * right. split; [by right|done].
    + intros [?|[? ?]]%IH; [by left|right]. split; [by right|done].
Qed.

Lemma elem_of_concat {A} (ls : list (list A)) (x : A) :
  x ∈ concat ls ↔ ∃ l, x ∈ l ∧ l ∈ ls.
Proof.
  induction ls as [|l ls IH]; simpl.
  - split; [by intros ?%elem_of_nil|by intros (? & _ & ?%elem_of_nil)].
  - rewrite elem_of_app, IH. setoid_rewrite elem_of_cons. naive_solver.
Qed.

Lemma elem_of_query now filters incl r e :
  e ∈ query now filters incl r ↔
  ∃ f, f ∈ filters ∧ e ∈ query_filter now incl r f.
Proof.
  unfold query, flatten. rewrite elem_of_uniq, elem_of_concat. split.
  - intros (l & He & (f & -> & Hf)%list_elem_of_fmap). eauto.
  - intros (f & Hf & He). eexists. split; [done|].
    apply list_elem_of_fmap. eauto.
Qed.

Lemma elem_of_query_filter now incl r f e :
  e ∈ query_filter now incl r f →
  e ∈ (narrow now r f).1 ∧ kept incl r (narrow now r f).2 e = true.
Proof.
  unfold query_filter. destruct (narrow now r f) as [events f']. simpl.
  intros [?%elem_of_nil|[He ?]]%elem_of_walk; [done|].
  split; [|done]. by apply elem_of_sortBy in He.
Qed.

(** The candidates of the narrowing step. *)
Lemma elem_of_candidates now r f e :
  reachable r → e ∈ (narrow now r f).1 →
  holds r e
  ∧ (∀ l, ids f = Some l → id e ∈ l)
  ∧ (∀ l, ids f = None → authors f = Some l → pubkey e ∈ l).
Proof.
  intros Hr. pose proof (reachable_invariant _ Hr) as Hinv.
  destruct (reachable_indices _ Hr) as (Hf & _ & _).
  unfold narrow. destruct (ids f) as [l|].
  { simpl. intros [? ?]%elem_of_by_ids; [|done].
    split_and!; [done| |done]. by intros ? [= <-]. }
  destruct (authors f) as [l|].
  { simpl. rewrite elem_of_uniq, list_elem_of_bind.
    intros (pk & He & Hpk). destruct (filed_author r Hf pk e He) as [? ->].
    split_and!; [done..|]. by intros ? _ [= <-]. }
  destruct (truthy (since f) || truthy (until f)).
  { simpl. rewrite elem_of_uniq. intros He%elem_of_by_days; done. }
  destruct (first_tag_field (tag_fields f)) as [[[k c] values]|]; simpl.
  - rewrite elem_of_uniq, list_elem_of_bind. intros (v & He & _).
    by destruct (filed_tag r Hf _ e He).
  - intros He%elem_of_dump; done.
Qed.

(** Property X12.  Unless [includeDeleted] is set, [query] returns no
    deleted event, whatever the repository, the filters and the index that
    narrows the scan. *)
Theorem query_excludes_deleted now filters r e :
  e ∈ query now filters false r → isDeleted r e = false.
Proof.
  intros (f & _ & [_ Hkept]%elem_of_query_filter)%elem_of_query.
  apply kept_true in Hkept as [[[=]|?] _]. done.
Qed.

(** Property X13.  On a repository reached by [publish] calls every event
    [query] returns is stored, and comes from a filter of the list that
    admits it: its id is among the filter's [ids], or - without [ids] - its
    author among the filter's [authors]. *)
Theorem query_returns_stored now filters incl r e :
  reachable r → e ∈ query now filters incl r →
  holds r e
  ∧ ∃ f, f ∈ filters
         ∧ (∀ l, ids f = Some l → id e ∈ l)
         ∧ (∀ l, ids f = None → authors f = Some l → pubkey e ∈ l).
Proof.
  intros Hr (f & Hf & [He _]%elem_of_query_filter)%elem_of_query.
  destruct (elem_of_candidates _ _ _ _ Hr He) as (? & ? & ?). eauto 6.
Qed.

(** Property X14.  The result of [query] on a list of filters is the union
    of its results on the parts of the list, each event once; on the empty
    list it is empty. *)
Theorem query_union now fs1 fs2 incl r :
  (∀ e, e ∈ query now (fs1 ++ fs2) incl r ↔
        e ∈ query now fs1 incl r ∨ e ∈ query now fs2 incl r)
  ∧ NoDup (query now (fs1 ++ fs2) incl r)
  ∧ query now [] incl r = [].
Proof.
  split_and!; [|apply NoDup_uniq|done].
  intros e. rewrite !elem_of_query. setoid_rewrite elem_of_app. naive_solver.
Qed.

(** Property X15.  [limit: 0] is falsy and limits nothing; a negative
    limit stops the loop at once and the filter yields nothing. *)
Theorem limit_zero_or_negative now incl r f :
  (limit f = Some 0 →
   query_filter now incl r f = query_filter now incl r (omit_limit f))
  ∧ (∀ N, limit f = Some N → N < 0 → query_filter now incl r f = []).
Proof.
  split.
  - intros Hlim. unfold query_filter. rewrite narrow_omit_limit.
    pose proof (narrow_limit now r f) as Hlim'. rewrite Hlim in Hlim'.
    destruct (narrow now r f) as [events f']. cbn [fst snd] in *.
    rewrite !walk_unlimited; [done..|]. by rewrite Hlim'.
  - intros N Hlim HN. unfold query_filter.
    pose proof (narrow_limit now r f) as Hlim'. rewrite Hlim in Hlim'.
    destruct (narrow now r f) as [events f']. cbn [fst snd] in *.
    destruct (sortBy _ events) as [|x l]; [done|]. cbn [walk].
    unfold limit_reached. rewrite Hlim'. cbn [truthy default from_option].
    rewrite (proj2 (Z.eqb_neq N 0)) by lia.
    cbn [negb andb length]. change (Z.of_nat 0) with 0.
    unfold Datatypes.id. by rewrite (proj2 (Z.leb_le N 0)) by lia.
Qed.
End query_properties.

(** ** Narrowing by author and by tag *)

Section narrowing_properties.
Context `{Externals}.
Implicit Types (r : Repository) (e x : Event).

Lemma tag_among_true name (values : list string) (l : list (list string)) :
  tag_among name values l = true ↔
  ∃ v rest, name :: v :: rest ∈ l ∧ v ∈ values.
Proof.
  unfold tag_among. induction l as [|tag l IH]; simpl.
  - split; [done|]. by intros (? & ? & ?%elem_of_nil & _).
  - rewrite orb_true_iff, IH. setoid_rewrite elem_of_cons. split.
    + intros [Htag|(v & rest & ? & ?)]; [|by eauto 6].
      destruct tag as [|t [|v rest]]; [done..|].
      apply andb_true_iff in Htag as [->%bool_decide_eq_true ?%bool_decide_eq_true].
      eauto 6.
    + intros (v & rest & [<-|?] & Hv); [left|right; by eauto].
      by rewrite !bool_decide_eq_true_2.
Qed.

Lemma one_letter (t0 : string) :
  String.length t0 = 1%nat → ∃ c, t0 = String c EmptyString.
Proof. destruct t0 as [|c [|? ?]]; [done| |done]. eauto. Qed.

Lemma tag_key_value c (v : string) tag :
  indexable tag → String c (":" +:+ v) = tag_key tag →
  ∃ rest, tag = String c EmptyString :: v :: rest.
Proof.
  unfold indexable, tag_key. destruct tag as [|t0 rest]; [done|].
  intros [c0 ->]%one_letter. destruct rest as [|v' rest]; intros Heq;
    cbv [join_colon take String.append] in Heq; injection Heq as Hc Hv.
  - done.
  - subst. eauto.
Qed.

Lemma narrow_tag_filter now r c (values : list string) :
  narrow now r (tag_filter c values) =
  (uniq (values ≫= λ v, default [] (eventsByTag r !! String c (":" +:+ v))),
   omit_key (String "#" (String c EmptyString)) (tag_filter c values)).
Proof. reflexivity. Qed.

Lemma matchFilter_tag_residual c (values : list string) e :
  matchFilter (omit_key (String "#" (String c EmptyString))
                 (tag_filter c values)) e = true.
Proof.
  unfold matchFilter, omit_key, tag_filter.
  cbn [ids authors kinds since until tag_fields field_ok andb].
  by rewrite filter_cons_False, filter_nil by (simpl; tauto).
Qed.

Lemma limit_tag_residual c (values : list string) :
  truthy (limit (omit_key (String "#" (String c EmptyString))
                   (tag_filter c values))) = false.
Proof. reflexivity. Qed.

(** Property X16.  On a repository reached by [publish] calls,
    [query([{authors: l}])] returns, each once, exactly the stored events
    of the authors in [l] that are not deleted: narrowing by the author
    buckets loses and adds nothing. *)
Theorem query_authors_narrowing now r (l : list string) :
  reachable r →
  query now [authors_filter l] false r
  ≡ₚ filter (λ e, pubkey e ∈ l ∧ isDeleted r e = false) (dump r).
Proof.
  intros Hr. pose proof (reachable_invariant _ Hr) as Hinv.
  destruct (reachable_indices _ Hr) as (Hf & Hc & _).
  apply NoDup_Permutation.
  { rewrite query_single. apply NoDup_uniq. }
  { apply NoDup_filter. by apply dump_NoDup. }
  intros e. rewrite query_single, elem_of_uniq, list_elem_of_filter.
  rewrite elem_of_dump by done.
  unfold query_filter, narrow. cbn [authors_filter ids authors].
  rewrite walk_unlimited by done. cbn [app].
  rewrite list_elem_of_filter, elem_of_sortBy, elem_of_uniq, list_elem_of_bind.
  rewrite Is_true_true, kept_true.
  assert (matchFilter (omit_authors (authors_filter l)) e = true) as -> by done.
  split.
  - intros [[[[=]|Hdel] _] (pk & He & Hpk)].
    destruct (filed_author r Hf pk e He) as [? ->]. done.
  - intros [[Hpk Hdel] He]. split; [by auto|].
    exists (pubkey e). split; [|done].
    apply isDeleted_false in Hdel as [_ Hdel].
    destruct (covered_author r Hc e He); [done|lia].
Qed.

(** Property X17.  On every reachable repository - the [publish] calls
    before may have returned or thrown - [query([{'#c': values}])] returns,
    each once, exactly the stored events that are not deleted and have,
    among the tags the loop of [publish] got to ([indexed_tags]), a tag
    [[c, v, ...]] with [v] among [values].  Those are all the tags of the
    event - the test is [carries] then - unless it is a deletion event with
    a valueless tag, whose [publish] call threw at that tag: the tags after
    it were never indexed, and [query] does not find the event by them. *)
Theorem query_tag_narrowing now r c (values : list string) :
  reachable r →
  query now [tag_filter c values] false r
  ≡ₚ filter (λ e, tag_among (String c EmptyString) values (indexed_tags e)
                  = true
                  ∧ isDeleted r e = false) (dump r)
  ∧ ∀ e, (kind e = DELETE → Forall (λ tag, ¬ valueless tag) (tags e)) →
         tag_among (String c EmptyString) values (indexed_tags e)
         = carries (String c EmptyString) values e.
Proof.
  intros Hr. split; [|by intros e ->%indexed_tags_all].
  pose proof (reachable_invariant _ Hr) as Hinv.
  destruct (reachable_indices _ Hr) as (Hf & Hc & _).
  apply NoDup_Permutation.
  { rewrite query_single. apply NoDup_uniq. }
  { apply NoDup_filter. by apply dump_NoDup. }
  intros e. rewrite query_single, elem_of_uniq, list_elem_of_filter.
  rewrite elem_of_dump by done.
  unfold query_filter. rewrite narrow_tag_filter.
  rewrite walk_unlimited by apply limit_tag_residual. cbn [app].
  rewrite list_elem_of_filter, elem_of_sortBy, elem_of_uniq, list_elem_of_bind.
  rewrite Is_true_true, kept_true, matchFilter_tag_residual.
  split.
  - intros [[[[=]|Hdel] _] (v & He & Hv)].
    destruct (filed_tag r Hf _ e He) as (? & tag & Htag & Hidx & Hkey).
    destruct (tag_key_value _ _ _ Hidx Hkey) as [rest ->].
    split; [|done]. split; [|done]. apply tag_among_true. eauto.
  - intros [[(v & rest & Htag & Hv)%tag_among_true Hdel] He].
    split; [by auto|]. exists v. split; [|done].
    apply isDeleted_false in Hdel as [_ Hdel].
    by destruct (covered_tag r Hc e _ He Htag eq_refl); [|lia].
Qed.
End narrowing_properties.

(** ** [clear], the notifications and [load] *)

Section lifecycle_properties.
Context `{Externals}.
Implicit Types (r : Repository) (e x : Event).

Lemma getEvent_frame r r' k : same_frame r r' → getEvent r' k = getEvent r k.
Proof. intros (Hid & _ & Haddr & _). unfold getEvent. by rewrite Hid, Haddr. Qed.

Lemma isDeleted_rises r r' x :
  (∀ k, tombstone r k ≤ tombstone r' k) →
  isDeleted r x = true → isDeleted r' x = true.
Proof.
  intros Hmono. rewrite !isDeleted_true.
  pose proof (Hmono (getAddress x)). pose proof (Hmono (id x)). lia.
Qed.

Lemma publish_tag_removed e d r s tag r' s' i :
  publish_tag e d (r, s) tag = Some (r', s') → i ∈ s' →
  i ∈ s ∨ ∃ k x, getEvent r k = Some x ∧ id x = i ∧ isDeleted r' x = true.
Proof.
  unfold publish_tag. intros Htag Hi.
  repeat case_match; simplify_eq; auto.
  apply elem_of_union in Hi as [?|Hi%elem_of_singleton]; [by left|right].
  subst i.
  eauto.
Qed.

Lemma publish_tags_removed e d l r s r' s' i :
  publish_tags e d (r, s) l = Some (r', s') → i ∈ s' →
  i ∈ s ∨ ∃ k x, getEvent r k = Some x ∧ id x = i ∧ isDeleted r' x = true.
Proof.
  revert r s. induction l as [|tag l IH]; intros r s; cbn [publish_tags].
  - intros; simplify_eq. by left.
  - destruct (publish_tag e d (r, s) tag) as [[r1 s1]|] eqn:Htag; [|done].
    intros Hl Hi.
    destruct (IH _ _ Hl Hi) as [Hi1|(k & x & Hget & ? & ?)].
    + destruct (publish_tag_removed _ _ _ _ _ _ _ _ Htag Hi1)
        as [?|(k & x & ? & ? & Hdel)]; [by left|right].
      exists k, x. split_and!; [done..|].
      eapply isDeleted_rises; [|done].
      intros k'. by eapply publish_tags_tombstone.
    + right. exists k, x. split_and!; [|done..].
      rewrite <- Hget. symmetry. apply getEvent_frame.
      by eapply publish_tag_frame.
Qed.

(** Property X18.  On a repository reached by [publish] calls, every id in
    the [removed] set that an accepting [publish] call notifies belongs to
    an event the repository holds after the call and reports as deleted -
    the superseded incumbent, or the target of a deletion tag; the call
    notifies once, with the event itself as [added]. *)
Theorem notified_removed_are_deleted e r r' u :
  reachable r → publish e true r = Some (true, r', u) →
  ∃ removed_ids,
    u = [{| added := [e]; removed := removed_ids |}]
    ∧ ∀ i, i ∈ removed_ids →
           ∃ x, holds r' x ∧ id x = i ∧ isDeleted r' x = true.
Proof.
  intros Hr Hp. pose proof (reachable_invariant _ Hr) as Hinv.
  assert (reachable r') as Hr' by (by eapply reachable_publish).
  destruct (publish_accepted_inv _ _ _ _ _ Hinv Hp)
    as (_ & _ & Hdup & _ & Hframe & rem & Htags & ->).
  exists rem. split; [done|]. intros i Hi.
  destruct (publish_tags_removed _ _ _ _ _ _ _ _ Htags Hi)
    as [Hsup|(k & x & Hget & Hid & Hdel)].
  - unfold superseded in Hsup.
    destruct (eventsByAddress r !! getAddress e) as [d|] eqn:Hd;
      [|by apply elem_of_empty in Hsup].
    apply elem_of_singleton in Hsup as ->. exists d.
    destruct (publish_supersedes _ _ _ _ _ _ Hinv Hd Hp) as (_ & ? & _).
    split_and!; [done..|]. apply isDeleted_true. right.
    by eapply superseded_tombstoned.
  - exists x. split_and!; [|done..].
    pose proof (reachable_invariant _ Hr') as Hinv'.
    rewrite <- (getEvent_frame _ _ k Hframe) in Hget. unfold getEvent in Hget.
    destruct (includes ":" k); [by eapply inv_address|].
    by apply get_holds in Hget as [? _].
Qed.

(** Property X19.  [clear] forgets everything, the tombstones too:
    afterwards no event is stored or found by [getEvent], [hasEvent] or
    [query], no event of non-negative [created_at] counts as deleted, and
    the notification lists as [removed] exactly the ids that were stored. *)
Theorem clear_forgets r :
  dump (clear r).1 = []
  ∧ (∀ k, getEvent (clear r).1 k = None)
  ∧ (∀ e, hasEvent (clear r).1 e = None)
  ∧ (∀ now filters incl, query now filters incl (clear r).1 = [])
  ∧ (∀ e, 0 ≤ created_at e → isDeleted (clear r).1 e = false)
  ∧ ∃ ids_removed,
      (clear r).2 = [{| added := []; removed := ids_removed |}]
      ∧ ∀ i, i ∈ ids_removed ↔ is_Some (JsMap.get i (eventsById r)).
Proof.
  cbn [clear fst snd]. split_and!.
  - done.
  - intros k. unfold getEvent. destruct (includes ":" k); [|done].
    apply lookup_empty.
  - intros e. unfold hasEvent. simpl. by rewrite lookup_empty.
  - intros now filters incl. apply elem_of_nil_inv. intros e He.
    apply elem_of_query in He as (f & _ & [He _]%elem_of_query_filter).
    destruct (elem_of_candidates _ _ _ _ reachable_new He) as [Hholds _].
    by apply elem_of_nil in Hholds.
  - intros e He. apply isDeleted_false. rewrite !tombstone_lookup. simpl.
    rewrite !lookup_empty. simpl. lia.
  - eexists. split; [done|]. intros i. rewrite elem_of_list_to_set.
    destruct (JsMap.get i (eventsById r)) as [x|] eqn:Hget.
    + split; [by eauto|intros _].
      apply jsmap_get_Some_elem in Hget. unfold JsMap.keys.
      apply list_elem_of_fmap. by exists (i, x).
    + apply jsmap_get_None_keys in Hget. split; [done|by intros [? [=]]].
Qed.


End lifecycle_properties.

(** ** The further properties on the samples *)

Lemma sample_publish_evC :
  publish Sample.evC true (run [Sample.evA])
  = Some (true, run [Sample.evA; Sample.evC],
          [{| added := [Sample.evC]; removed := {["a"]} |}]).
Proof. vm_compute. reflexivity. Qed.

Lemma sample_publish_evD :
  publish Sample.evD true (run [Sample.evA; Sample.evC])
  = Some (true, run [Sample.evA; Sample.evC; Sample.evD],
          [{| added := [Sample.evD]; removed := {["a"]} |}]).
Proof. vm_compute. reflexivity. Qed.

Lemma sample_publish_evW :
  publish Sample2.evW true empty_repository
  = Some (true, run [Sample2.evW],
          [{| added := [Sample2.evW]; removed := ∅ |}]).
Proof. vm_compute. reflexivity. Qed.

Lemma sample_query_ids :
  query 0 [ids_filter ["n"; "a"; "x"]] false (run Sample2.events)
  = [Sample.evN].
Proof. vm_compute. reflexivity. Qed.


(** X1 on [evC], accepted after [evA]. *)
Lemma publish_only_appends_witness :
  eventsById (run [Sample.evA; Sample.evC])
  = eventsById (run [Sample.evA]) ++ [("c", Sample.evC)]
  ∧ dump (run [Sample.evA; Sample.evC])
    = dump (run [Sample.evA]) ++ [Sample.evC].
Proof.
  exact (publish_only_appends Sample.evC true (run [Sample.evA]) true
           (run [Sample.evA; Sample.evC]) _ sample_publish_evC).
Defined.

(** X2 on the deletion [evD]. *)
Lemma tombstones_persist_witness :
  (∀ k, is_Some (deletes (run [Sample.evA; Sample.evC]) !! k) →
        is_Some (deletes (run [Sample.evA; Sample.evC; Sample.evD]) !! k))
  ∧ (∀ k, (∀ d, eventsByAddress (run [Sample.evA; Sample.evC])
                  !! getAddress Sample.evD = Some d → k ≠ id d) →
          tombstone (run [Sample.evA; Sample.evC]) k
          ≤ tombstone (run [Sample.evA; Sample.evC; Sample.evD]) k).
Proof.
  exact (tombstones_persist Sample.evD true (run [Sample.evA; Sample.evC]) true
           (run [Sample.evA; Sample.evC; Sample.evD]) _ sample_publish_evD).
Defined.

(** X3 on the superseded [evA], while [evD] is published. *)
Lemma deleted_by_id_is_final_witness :
  holds (run [Sample.evA; Sample.evC; Sample.evD]) Sample.evA
  ∧ isDeletedById (run [Sample.evA; Sample.evC; Sample.evD]) Sample.evA = true.
Proof.
  refine (deleted_by_id_is_final Sample.evD true (run [Sample.evA; Sample.evC])
            true (run [Sample.evA; Sample.evC; Sample.evD]) _ Sample.evA
            _ sample_publish_evD _ _).
  - apply run_reachable.
  - vm_compute. left.
  - vm_compute. reflexivity.
Defined.

(** X4 on an event of [created_at = -5]. *)
Lemma negative_created_at_rejected_witness :
  publish Sample2.evNeg true (run [Sample.evA])
  = Some (false, run [Sample.evA], [])
  ∧ (∀ x, holds (run [Sample.evA]) x → 0 ≤ created_at x)
  ∧ (∀ k, 0 ≤ tombstone (run [Sample.evA]) k).
Proof.
  refine (negative_created_at_rejected Sample2.evNeg true (run [Sample.evA])
            _ _ _).
  - apply run_reachable.
  - reflexivity.
  - reflexivity.
Defined.

(** X6 on the wrapped [evW]. *)
Lemma publish_then_lookup_witness :
  JsMap.get "w1" (eventsById (run [Sample2.evW])) = Some Sample2.evW
  ∧ getEvent (run [Sample2.evW]) "w1" = Some Sample2.evW
  ∧ getEvent (run [Sample2.evW]) "10000:pk:w" = Some Sample2.evW
  ∧ hasEvent (run [Sample2.evW]) Sample2.evW = Some true
  ∧ eventsByWrap (run [Sample2.evW]) !! "outer" = Some Sample2.evW.
Proof.
  destruct (publish_then_lookup Sample2.evW true empty_repository
              (run [Sample2.evW]) _ sample_publish_evW)
    as (Hid & Hget & Haddr & Hhas & Hwrap).
  split_and!.
  - exact Hid.
  - apply Hget. reflexivity.
  - apply Haddr; reflexivity.
  - exact Hhas.
  - apply Hwrap. reflexivity.
Defined.

(** X7 on the stale [evB]. *)
Lemma hasEvent_true_rejected_witness :
  publish Sample.evB true (run [Sample.evA])
  = Some (false, run [Sample.evA], []).
Proof.
  refine (hasEvent_true_rejected Sample.evB true (run [Sample.evA]) _ _).
  - reflexivity.
  - vm_compute. reflexivity.
Defined.

(** X8 on the address of [evA] and [evN]. *)
Lemma address_holds_newest_witness :
  holds (run Sample2.events) Sample.evN
  ∧ getAddress Sample.evN = "10000:pk:x"
  ∧ isReplaceable Sample.evN = true
  ∧ ∀ x, holds (run Sample2.events) x → isReplaceable x = true →
         getAddress x = "10000:pk:x" →
         x = Sample.evN ∨ created_at x < created_at Sample.evN.
Proof.
  refine (address_holds_newest (run Sample2.events) "10000:pk:x" Sample.evN _ _).
  - apply run_reachable.
  - vm_compute. reflexivity.
Defined.

(** X9 on the sample repository. *)
Lemma index_entries_filed_witness :
  (∀ k e, e ∈ bucket (eventsByDay (run Sample2.events)) k →
          holds (run Sample2.events) e ∧ k = getDay (created_at e))
  ∧ (∀ k e, e ∈ bucket (eventsByAuthor (run Sample2.events)) k →
            holds (run Sample2.events) e ∧ k = pubkey e)
  ∧ (∀ k e, e ∈ bucket (eventsByTag (run Sample2.events)) k →
            holds (run Sample2.events) e
            ∧ ∃ tag, tag ∈ tags e ∧ indexable tag ∧ k = tag_key tag)
  ∧ (∀ w e, eventsByWrap (run Sample2.events) !! w = Some e →
            holds (run Sample2.events) e ∧ wrap e = Some w).
Proof.
  apply (index_entries_filed (run Sample2.events)). apply run_reachable.
Defined.

(** X10 on [evN], stored and not deleted. *)
Lemma live_event_indexed_witness :
  Sample2.evCrash2
  ∈ bucket (eventsByDay (run [Sample.evA; Sample2.evCrash2]))
      (getDay (created_at Sample2.evCrash2))
  ∧ Sample2.evCrash2
    ∈ bucket (eventsByAuthor (run [Sample.evA; Sample2.evCrash2]))
        (pubkey Sample2.evCrash2)
  ∧ (∀ tag, tag ∈ indexed_tags Sample2.evCrash2 → indexable tag →
            Sample2.evCrash2
            ∈ bucket (eventsByTag (run [Sample.evA; Sample2.evCrash2]))
                (tag_key tag))
  ∧ ((kind Sample2.evCrash2 = DELETE →
      Forall (λ tag, ¬ valueless tag) (tags Sample2.evCrash2)) →
     ∀ tag, tag ∈ tags Sample2.evCrash2 → indexable tag →
            Sample2.evCrash2
            ∈ bucket (eventsByTag (run [Sample.evA; Sample2.evCrash2]))
                (tag_key tag)).
Proof.
  refine (live_event_indexed (run [Sample.evA; Sample2.evCrash2])
            Sample2.evCrash2 _ _ _).
  - apply run_reachable.
  - vm_compute. right. left.
  - vm_compute. reflexivity.
Defined.

(** X11 on the address of [evN]. *)
Lemma getEvent_found_witness :
  holds (run Sample2.events) Sample.evN
  ∧ getAddress Sample.evN = "10000:pk:x" ∧ isReplaceable Sample.evN = true.
Proof.
  refine (getEvent_found (run Sample2.events) "10000:pk:x" Sample.evN _ _).
  - apply run_reachable.
  - vm_compute. reflexivity.
Defined.

(** X12 on a query by ids that names the superseded [evA] and the deleted
    [evX] beside [evN]. *)
Lemma query_excludes_deleted_witness :
  isDeleted (run Sample2.events) Sample.evN = false.
Proof.
  refine (query_excludes_deleted 0 [ids_filter ["n"; "a"; "x"]]
            (run Sample2.events) Sample.evN _).
  rewrite sample_query_ids. left.
Defined.

(** X13 on the same query. *)
Lemma query_returns_stored_witness :
  holds (run Sample2.events) Sample.evN
  ∧ ∃ f, f ∈ [ids_filter ["n"; "a"; "x"]]
         ∧ (∀ l, ids f = Some l → id Sample.evN ∈ l)
         ∧ (∀ l, ids f = None → authors f = Some l → pubkey Sample.evN ∈ l).
Proof.
  refine (query_returns_stored 0 [ids_filter ["n"; "a"; "x"]] false
            (run Sample2.events) Sample.evN _ _).
  - apply run_reachable.
  - rewrite sample_query_ids. left.
Defined.

(** X16 on the one author of the samples. *)
Lemma query_authors_narrowing_witness :
  query 0 [authors_filter ["pk"; "nobody"]] false (run Sample2.events)
  ≡ₚ filter (λ e, pubkey e ∈ ["pk"; "nobody"]
                  ∧ isDeleted (run Sample2.events) e = false)
       (dump (run Sample2.events)).
Proof.
  apply (query_authors_narrowing 0 (run Sample2.events) ["pk"; "nobody"]).
  apply run_reachable.
Defined.

(** X17 on the tag [t] of [evA], before and after [evA] is superseded. *)
Lemma query_tag_narrowing_witness :
  query 0 [tag_filter "p" ["x"]] false (run [Sample.evA; Sample2.evCrash2])
  ≡ₚ filter (λ e, tag_among "p" ["x"] (indexed_tags e) = true
                  ∧ isDeleted (run [Sample.evA; Sample2.evCrash2]) e = false)
       (dump (run [Sample.evA; Sample2.evCrash2]))
  ∧ ∀ e, (kind e = DELETE → Forall (λ tag, ¬ valueless tag) (tags e)) →
         tag_among "p" ["x"] (indexed_tags e) = carries "p" ["x"] e.
Proof.
  apply (query_tag_narrowing 0 (run [Sample.evA; Sample2.evCrash2]) "p"
           ["x"]).
  apply run_reachable.
Defined.

(** X18 on the deletion [evD] of the superseded [evA]. *)
Lemma notified_removed_are_deleted_witness :
  ∃ removed_ids,
    [{| added := [Sample.evD]; removed := {["a"]} |}]
    = [{| added := [Sample.evD]; removed := removed_ids |}]
    ∧ ∀ i, i ∈ removed_ids →
           ∃ x, holds (run [Sample.evA; Sample.evC; Sample.evD]) x
                ∧ id x = i
                ∧ isDeleted (run [Sample.evA; Sample.evC; Sample.evD]) x = true.
Proof.
  refine (notified_removed_are_deleted Sample.evD (run [Sample.evA; Sample.evC])
            (run [Sample.evA; Sample.evC; Sample.evD]) _ _ sample_publish_evD).
  apply run_reachable.
Defined.


(** X5 on a deletion with the tag [["e"]], on the stale [evB] and on
    [evC]: the call throws, returns [false], returns [true]. *)
Lemma publish_outcome_witness :
  publish Sample2.evCrash true (run [Sample.evA]) = None
  ∧ (∃ r' u, publish Sample.evB true (run [Sample.evA]) = Some (false, r', u))
  ∧ (∃ r' u, publish Sample.evC true (run [Sample.evA]) = Some (true, r', u)).
Proof.
  split_and!.
  - apply (proj1 (publish_outcome Sample2.evCrash true (run [Sample.evA]))).
    right. split.
    + intros Hrej%rejects_test. vm_compute in Hrej. discriminate Hrej.
    + split; [reflexivity|]. exists ["e"]. split; [left|reflexivity].
  - apply (proj1 (proj2 (publish_outcome Sample.evB true (run [Sample.evA])))).
    split; [reflexivity|]. apply rejects_test. vm_compute. reflexivity.
  - apply (proj2 (proj2 (publish_outcome Sample.evC true (run [Sample.evA])))).
    split_and!.
    + reflexivity.
    + intros Hrej%rejects_test. vm_compute in Hrej. discriminate Hrej.
    + intros [Hkind _]. vm_compute in Hkind. discriminate Hkind.
Defined.
